(** * Message server: a store-and-forward mailbox

    Shallow embedding of the message server (the [/send], [/recv] and
    [/health] route handlers over the module-level [messages] map) and the
    properties of its mailbox store.

    Modelling conventions.
    - A JavaScript string is a [string]: a sequence of code units below 256
      (the Latin-1 range).  On that range [toLowerCase] and [trim] below are
      the ECMAScript functions.
    - [messages : Map<string, Message[]>] is a [gmap string (list Message)].
    - [Date.now()], [Math.random().toString(36)] and [new Date()] are read
      from an environment record that comes with each [/send] request.
    - Node runs each route handler to completion before the next one starts,
      so a run of the server is a list of requests handled one after the
      other, each handler a function from the store to a response and the
      next store. *)

From Stdlib Require Import Ascii String.
From stdpp Require Import gmap strings list fin_maps pretty.

Set Warnings "-register-all".
Local Open Scope string_scope.

(** ** Strings *)

Module JsString.

(** [String.prototype.toLowerCase] on one code unit: A-Z, and the Latin-1
    capitals U+00C0..U+00DE other than the multiplication sign U+00D7. *)
Definition lower_unit (c : ascii) : ascii :=
  let n := N_of_ascii c in
  if ((65 <=? n) && (n <=? 90))%N
     || ((192 <=? n) && (n <=? 222) && negb (n =? 215))%N
  then ascii_of_N (n + 32)
  else c.

Fixpoint toLowerCase (s : string) : string :=
  match s with
  | EmptyString => EmptyString
  | String c s' => String (lower_unit c) (toLowerCase s')
  end.

(** White space and line terminators stripped by [String.prototype.trim]:
    TAB, LF, VT, FF, CR, SP and NBSP. *)
Definition is_space (c : ascii) : bool :=
  let n := N_of_ascii c in
  ((9 <=? n) && (n <=? 13))%N || (n =? 32)%N || (n =? 160)%N.

Fixpoint trimStart (s : string) : string :=
  match s with
  | EmptyString => EmptyString
  | String c s' => if is_space c then trimStart s' else s
  end.

Fixpoint trimEnd (s : string) : string :=
  match s with
  | EmptyString => EmptyString
  | String c s' =>
      match trimEnd s' with
      | EmptyString => if is_space c then EmptyString else String c EmptyString
      | t => String c t
      end
  end.

Definition trim (s : string) : string := trimEnd (trimStart s).

(** [s.substr(start, len)]; shorter when [s] runs out. *)
Definition substr (start len : nat) (s : string) : string :=
  String.substring start len s.

(** [Array.prototype.join(",")] on the elements already turned to strings. *)
Fixpoint join_comma (l : list string) : string :=
  match l with
  | [] => ""
  | [x] => x
  | x :: l' => x +:+ "," +:+ join_comma l'
  end.

End JsString.

Import JsString.

(** ** Data model *)

Record Message := {
  id : string;
  content : string;
  recipient : string;
  timestamp : N
}.

(** The three fields of a message that [/recv] puts in its response. *)
Record MessageView := {
  view_id : string;
  view_content : string;
  view_timestamp : N
}.

Definition view (msg : Message) : MessageView :=
  {| view_id := id msg; view_content := content msg;
     view_timestamp := timestamp msg |}.

(** A value of a parsed JSON request body.  The number of [JNum] is never
    looked at by the handlers. *)
Inductive Json :=
| JNull
| JBool (b : bool)
| JNum (n : Z)
| JStr (s : string)
| JArr (items : list Json)
| JObj (fields : list (string * Json)).

(** [v[k]] for the two property names the handler reads; [None] is
    [undefined].  Only an object has them; an object is the list of its
    properties, and the first entry for a name is its value. *)
Fixpoint assoc (k : string) (fields : list (string * Json)) : option Json :=
  match fields with
  | [] => None
  | (k', v) :: rest => if String.eqb k k' then Some v else assoc k rest
  end.

Definition prop (v : Json) (k : string) : option Json :=
  match v with
  | JObj fields => assoc k fields
  | _ => None
  end.

(** One entry of [req.query]: a string, an array of strings and nested
    objects, or a nested object.  The content of a nested object is never
    looked at: [String] of it is ["[object Object]"]. *)
Inductive QueryItem :=
| IStr (s : string)
| IObj.

Inductive QueryValue :=
| QStr (s : string)
| QArr (items : list QueryItem)
| QObj.

Definition object_Object : string := "[object Object]".

Definition item_String (i : QueryItem) : string :=
  match i with
  | IStr s => s
  | IObj => object_Object
  end.

(** [String(v)]. *)
Definition to_String (v : QueryValue) : string :=
  match v with
  | QStr s => s
  | QArr items => join_comma (item_String <$> items)
  | QObj => object_Object
  end.

(** JavaScript truthiness: of the values above only the empty string is
    falsy. *)
Definition truthy (v : QueryValue) : bool :=
  match v with
  | QStr s => negb (String.eqb s "")
  | _ => true
  end.

(** What a [/send] handler reads from the clock and the random source. *)
Record Env := {
  date_now : N;            (* Date.now() *)
  random_36 : string;      (* Math.random().toString(36) *)
  new_date : N             (* new Date() *)
}.

(** The JSON of a response, one constructor per shape the handlers send;
    the constant fields ([success], [status: 'healthy'], [endpoints]) are
    left out. *)
Inductive Body :=
| ErrorBody (error message : string)
| SentBody (message : string) (sent_id sent_recipient : string)
           (sent_timestamp : N)
| MessagesBody (message : string) (for_recipient : string)
               (messages : list MessageView) (count : nat)
| HealthBody (message : string) (totalRecipients : nat).

Record Response := { status : nat; body : Body }.

(** ** The handlers *)

Definition generateMessageId (e : Env) : string :=
  pretty (date_now e) +:+ substr 2 9 (random_36 e).

Definition invalid_recipient (msg : string) : Response :=
  {| status := 400; body := ErrorBody "Invalid recipient" msg |}.

Definition invalid_message : Response :=
  {| status := 400;
     body := ErrorBody "Invalid message"
                       "Message is required and must be a string" |}.

Definition internal_error (msg : string) : Response :=
  {| status := 500; body := ErrorBody "Internal server error" msg |}.

(** The object literal [newMessage] of the [/send] handler; [to] and [text]
    are the [recipient] and [message] fields of the request body. *)
Definition newMessage (e : Env) (to text : string) : Message :=
  {| id := generateMessageId e;
     content := text;
     recipient := toLowerCase to;
     timestamp := new_date e |}.

(** [app.post('/send', ...)].  Destructuring an [undefined] or [null] body
    throws, and the [catch] answers 500. *)
Definition send (e : Env) (reqBody : option Json)
    (messages : gmap string (list Message))
  : Response * gmap string (list Message) :=
  match reqBody with
  | None | Some JNull => (internal_error "Failed to send message", messages)
  | Some b =>
      match prop b "recipient" with
      | Some (JStr to) =>
          if String.eqb to "" then
            (invalid_recipient "Recipient is required and must be a string",
             messages)
          else
            match prop b "message" with
            | Some (JStr text) =>
                if String.eqb text "" then (invalid_message, messages)
                else
                  let msg := newMessage e to text in
                  let messages1 :=
                    match messages !! recipient msg with
                    | None => <[recipient msg := []]> messages
                    | Some _ => messages
                    end in
                  let messages2 :=
                    alter (λ l, (l ++ [msg])%list) (recipient msg) messages1 in
                  ({| status := 201;
                      body := SentBody "Message sent successfully"
                                (id msg) (recipient msg) (timestamp msg) |},
                   messages2)
            | _ => (invalid_message, messages)
            end
      | _ =>
          (invalid_recipient "Recipient is required and must be a string",
           messages)
      end
  end.

(** [app.get('/recv', ...)]; [q] is [req.query.recipient]. *)
Definition recv (q : option QueryValue)
    (messages : gmap string (list Message))
  : Response * gmap string (list Message) :=
  match q with
  | None => (invalid_recipient "Recipient parameter is required", messages)
  | Some v =>
      if negb (truthy v) then
        (invalid_recipient "Recipient parameter is required", messages)
      else
        let recipientStr := to_String v in
        if String.eqb (trim recipientStr) "" then
          (invalid_recipient "Recipient parameter cannot be empty", messages)
        else
          let recipientKey := toLowerCase recipientStr in
          let recipientMessages := default [] (messages !! recipientKey) in
          if Nat.eqb (length recipientMessages) 0 then
            ({| status := 200;
                body := MessagesBody "No messages found for recipient"
                                     recipientKey [] 0 |},
             messages)
          else
            let messagesToReturn := recipientMessages in
            ({| status := 200;
                body := MessagesBody "Messages retrieved successfully"
                          recipientKey (view <$> messagesToReturn)
                          (length messagesToReturn) |},
             delete recipientKey messages)
  end.

(** [app.get('/health', ...)]. *)
Definition health (messages : gmap string (list Message))
  : Response * gmap string (list Message) :=
  ({| status := 200;
      body := HealthBody "Message server is running" (size messages) |},
   messages).

(** ** Runs of the server *)

Inductive Request :=
| PostSend (e : Env) (reqBody : option Json)
| GetRecv (q : option QueryValue)
| GetHealth.

Definition handle (r : Request) (messages : gmap string (list Message))
  : Response * gmap string (list Message) :=
  match r with
  | PostSend e reqBody => send e reqBody messages
  | GetRecv q => recv q messages
  | GetHealth => health messages
  end.

(** The store after a run. *)
Fixpoint final (t : list Request) (messages : gmap string (list Message))
  : gmap string (list Message) :=
  match t with
  | [] => messages
  | r :: t' => final t' (handle r messages).2
  end.

(** The responses of a run, in order. *)
Fixpoint responses (t : list Request) (messages : gmap string (list Message))
  : list Response :=
  match t with
  | [] => []
  | r :: t' => (handle r messages).1 :: responses t' (handle r messages).2
  end.

(** ** Reading the handlers

    Auxiliary notions used to state the properties: what a handler accepts,
    which mailbox it works on, and what the store holds for a key. *)

(** The messages queued under [k]; an absent entry holds none. *)
Definition mailbox (messages : gmap string (list Message)) (k : string)
  : list Message :=
  default [] (messages !! k).

(** A string of white space only (the empty string included). *)
Fixpoint all_space (x : string) : bool :=
  match x with
  | EmptyString => true
  | String c x' => is_space c && all_space x'
  end.

(** The [recipient] and [message] strings of a body that passes the checks
    of [/send]. *)
Definition send_input (reqBody : option Json) : option (string * string) :=
  match reqBody with
  | Some b =>
      match prop b "recipient", prop b "message" with
      | Some (JStr to), Some (JStr text) =>
          if String.eqb to "" || String.eqb text "" then None
          else Some (to, text)
      | _, _ => None
      end
  | None => None
  end.

(** The key that [/recv] looks up, when the query passes its checks. *)
Definition recv_key (q : option QueryValue) : option string :=
  match q with
  | Some v =>
      if truthy v && negb (String.eqb (trim (to_String v)) "")
      then Some (toLowerCase (to_String v))
      else None
  | None => None
  end.

(** The key a request works on, if it gets past validation. *)
Definition target (r : Request) : option string :=
  match r with
  | PostSend _ reqBody => (λ p, toLowerCase p.1) <$> send_input reqBody
  | GetRecv q => recv_key q
  | GetHealth => None
  end.

(** The messages array of a response; empty for the other responses. *)
Definition returned (resp : Response) : list MessageView :=
  match body resp with
  | MessagesBody _ _ ms _ => ms
  | _ => []
  end.

Definition returned_count (resp : Response) : option nat :=
  match body resp with
  | MessagesBody _ _ _ n => Some n
  | _ => None
  end.

Definition reported_recipient (resp : Response) : option string :=
  match body resp with
  | SentBody _ _ r _ => Some r
  | MessagesBody _ r _ _ => Some r
  | _ => None
  end.

Definition reported_id (resp : Response) : option string :=
  match body resp with
  | SentBody _ i _ _ => Some i
  | _ => None
  end.

Definition reported_total (resp : Response) : option nat :=
  match body resp with
  | HealthBody _ n => Some n
  | _ => None
  end.

(** The messages created for key [k] by the accepted [/send] requests of a
    run, in the order of the requests. *)
Fixpoint sent_to (k : string) (t : list Request) : list Message :=
  match t with
  | [] => []
  | PostSend e reqBody :: t' =>
      match send_input reqBody with
      | Some (to, text) =>
          if decide (toLowerCase to = k)
          then newMessage e to text :: sent_to k t'
          else sent_to k t'
      | None => sent_to k t'
      end
  | _ :: t' => sent_to k t'
  end.

(** The messages handed out, in order, by the [/recv] responses of a run
    started in [messages] to the requests for key [k]. *)
Fixpoint received (k : string) (t : list Request)
    (messages : gmap string (list Message)) : list MessageView :=
  match t with
  | [] => []
  | r :: t' =>
      (match r with
       | GetRecv q =>
           if decide (recv_key q = Some k)
           then returned (handle r messages).1
           else []
       | _ => []
       end ++ received k t' (handle r messages).2)%list
  end.

(** No key of the map holds an empty array. *)
Definition no_empty_entry (messages : gmap string (list Message)) : Prop :=
  ∀ k l, messages !! k = Some l → l ≠ [].

(** Every message sits under the key that its [recipient] field names. *)
Definition filed_by_recipient (messages : gmap string (list Message)) : Prop :=
  ∀ k l, messages !! k = Some l → Forall (λ msg, recipient msg = k) l.

(** The number of keys whose array is not empty. *)
Definition nonempty_mailboxes (messages : gmap string (list Message)) : nat :=
  size (filter (λ kl : string * list Message, kl.2 ≠ []) messages).

(** The store after [/send] accepted [msg]. *)
Definition deposit (msg : Message) (messages : gmap string (list Message))
  : gmap string (list Message) :=
  <[recipient msg := (mailbox messages (recipient msg) ++ [msg])%list]> messages.

(** The body [{ recipient: to, message: text }] that clients post. *)
Definition send_body (to text : string) : option Json :=
  Some (JObj [("recipient", JStr to); ("message", JStr text)]).

(** The field [k] of a request body; [None] when the body or the field is
    [undefined]. *)
Definition field (reqBody : option Json) (k : string) : option Json :=
  match reqBody with
  | Some b => prop b k
  | None => None
  end.

(** [typeof v === 'string'] and [v] truthy. *)
Definition nonempty_string (v : option Json) : Prop :=
  ∃ x, v = Some (JStr x) ∧ x ≠ "".

(** Sample readings of the clock and the random source. *)
Definition env_a : Env :=
  {| date_now := 1762041600000; random_36 := "0.4fzyo82mvyr";
     new_date := 1762041600000 |}.

Definition env_b : Env :=
  {| date_now := 1762041600007; random_36 := "0.k2x9q0c1d8e";
     new_date := 1762041600007 |}.

(** [r] is a [/recv] for key [k] that passes validation. *)
Definition recv_on (k : string) (r : Request) : bool :=
  match r with
  | GetRecv q => bool_decide (recv_key q = Some k)
  | _ => false
  end.

(** The run that posts the given (clock, recipient, content) triples. *)
Definition posts (ms : list (Env * string * string)) : list Request :=
  (λ m, PostSend m.1.1 (send_body m.1.2 m.2)) <$> ms.

(** What holds of every entry [k ↦ l] of a map the server builds: the key
    is a non-empty lower-case string, and every message of [l] names [k] as
    its recipient and has a non-empty content. *)
Definition entry_ok (k : string) (l : list Message) : Prop :=
  toLowerCase k = k ∧ k ≠ ""
  ∧ Forall (λ msg, recipient msg = k ∧ content msg ≠ "") l.

(** The answer of [/recv] for key [k] when nothing is queued. *)
Definition no_messages (k : string) : Response :=
  {| status := 200;
     body := MessagesBody "No messages found for recipient" k [] 0 |}.

(** ** The echo server

    The second application of the repository: a request logger and an
    API-key check in front of [POST /echo] and [GET /].  Each middleware is a
    function of the request, of what comes after it ([next]) and of the
    world it writes to.  What Express does on its own account (parsing the
    JSON body, matching the route, answering a request that no handler of
    the file answers) is given with the request or left open: a run that
    ends without a reply of these handlers has the reply [None]. *)

Module EchoServer.

(** [req.headers['x-api-key']]: a string, or an array of strings. *)
Inductive HeaderValue :=
| HStr (s : string)
| HArr (items : list string).

(** The route that Express matches the request with. *)
Inductive Route :=
| PostEcho
| GetRoot
| NoRoute.

(** A number that [JSON.parse] can give: a finite double other than [-0],
    written [m * 2^e]; [-0]; or an infinity, which is what a literal beyond
    the range of a double such as [1e400] parses to. *)
Inductive Number :=
| Finite (m e : Z)
| NegZero
| Infinite (negative : bool).

(** A value of a parsed body, which the echo route sends back; the fields
    of an object are in the order of its properties. *)
Inductive Value :=
| VNull
| VBool (b : bool)
| VNum (x : Number)
| VStr (s : string)
| VArr (items : list Value)
| VObj (fields : list (string * Value)).

(** [JSON.stringify(v)], as the value that its text denotes: [-0] is written
    [0], a number that is not finite is written [null], everything else is
    written as it is. *)
Fixpoint stringify (v : Value) : Value :=
  match v with
  | VNum NegZero => VNum (Finite 0 0)
  | VNum (Infinite _) => VNull
  | VArr items => VArr (List.map stringify items)
  | VObj fields =>
      VObj (List.map (λ kv, let '(k, x) := kv in (k, stringify x)) fields)
  | _ => v
  end.

(** No [-0] and no infinity anywhere in the value. *)
Fixpoint plain (v : Value) : bool :=
  match v with
  | VNum (Finite _ _) => true
  | VNum _ => false
  | VArr items => forallb plain items
  | VObj fields => forallb (λ kv, let '(_, x) := kv in plain x) fields
  | _ => true
  end.

(** What [express.json()] makes of the body: an error passed to Express, or
    [req.body] ([None] is [undefined]). *)
Inductive Parsed :=
| BadJson
| Body (b : option Value).

Record Request := {
  method : string;
  url : string;
  ip : option string;
  x_api_key : option HeaderValue;
  route : Route;
  parsed : Parsed
}.

Inductive Payload :=
| ErrorJson (error message : string)
| Echoed (b : option Value)
| Welcome (message : string) (endpoints : list string).

Record Response := { status : nat; payload : Payload }.

(** The log file of the logger ([None]: not created yet) and the lines
    written to the console. *)
Record World := {
  requests_log : option string;
  console : list string
}.

Definition Next : Type := World → option Response * World.

(** [process.env.API_KEY || 'your-secret-api-key-here']. *)
Definition VALID_API_KEY (env_API_KEY : option string) : string :=
  match env_API_KEY with
  | Some k => if String.eqb k "" then "your-secret-api-key-here" else k
  | None => "your-secret-api-key-here"
  end.

(** The template literal of the logger; [timestamp] is
    [new Date().toISOString()]. *)
Definition logEntry (timestamp : string) (req : Request) : string :=
  "[" +:+ timestamp +:+ "] " +:+ method req +:+ " " +:+ url req +:+ " - "
  +:+ match ip req with
      | Some a => if String.eqb a "" then "unknown" else a
      | None => "unknown"
      end
  +:+ String (ascii_of_nat 10) "".

(** [fs.appendFileSync(logFile, data)]: the file is created when absent. *)
Definition appendFileSync (file : option string) (data : string)
  : option string :=
  Some (default "" file +:+ data).

(** The first middleware: print the entry, append it to the log, go on. *)
Definition logger (timestamp : string) (req : Request) (next : Next) : Next :=
  λ w,
    let entry := logEntry timestamp req in
    next {| requests_log := appendFileSync (requests_log w) entry;
            console := (console w ++ [trim entry])%list |}.

(** The second middleware: the API-key check. *)
Definition authenticate (valid : string) (req : Request) (next : Next) : Next :=
  λ w,
    match x_api_key req with
    | None | Some (HStr EmptyString) =>
        (Some {| status := 401;
                 payload := ErrorJson "API key is required"
                   "Please provide a valid API key in the x-api-key header" |},
         w)
    | Some (HStr k) =>
        if String.eqb k valid then next w
        else
          (Some {| status := 401;
                   payload := ErrorJson "Invalid API key"
                                "The provided API key is not valid" |}, w)
    | Some (HArr _) =>
        (Some {| status := 401;
                 payload := ErrorJson "Invalid API key"
                              "The provided API key is not valid" |}, w)
    end.

(** [app.post('/echo', ...)] and [app.get('/', ...)].  [res.json(req.body)]
    sends the text of [JSON.stringify(req.body)], and nothing for [undefined];
    the payload is the value that the text denotes. *)
Definition echo (b : option Value) : Response :=
  {| status := 200; payload := Echoed (stringify <$> b) |}.

Definition root : Response :=
  {| status := 200;
     payload := Welcome "Echo server is running!" ["POST /echo"] |}.

(** [express.json()] followed by the two routes. *)
Definition routes (req : Request) : Next :=
  λ w,
    match parsed req with
    | BadJson => (None, w)
    | Body b =>
        match route req with
        | PostEcho => (Some (echo b), w)
        | GetRoot => (Some root, w)
        | NoRoute => (None, w)
        end
    end.

(** The application: the middlewares in the order of their [app.use]. *)
Definition app (env_API_KEY : option string) (timestamp : string)
    (req : Request) : Next :=
  logger timestamp req
    (authenticate (VALID_API_KEY env_API_KEY) req (routes req)).

(** The world after a run of requests, each with the time it is logged at. *)
Fixpoint serve (env_API_KEY : option string)
    (t : list (string * Request)) (w : World) : World :=
  match t with
  | [] => w
  | (timestamp, req) :: t' =>
      serve env_API_KEY t' (app env_API_KEY timestamp req w).2
  end.

(** The entries that a run appends to the log, one after the other. *)
Definition log_lines (t : list (string * Request)) : string :=
  foldr (λ p rest, logEntry p.1 p.2 +:+ rest) "" t.

Definition sample_request : Request :=
  {| method := "POST"; url := "/echo"; ip := Some "::ffff:127.0.0.1";
     x_api_key := Some (HStr "your-secret-api-key-here");
     route := PostEcho;
     parsed := Body (Some (VObj [("test", VStr "data")])) |}.

Definition anonymous_request : Request :=
  {| method := "GET"; url := "/"; ip := None; x_api_key := None;
     route := GetRoot; parsed := Body None |}.

End EchoServer.

(** ** Basic facts about the handlers *)

Section handlers.
Implicit Types (messages s : gmap string (list Message)).
Implicit Types (k : string) (msg : Message).

Lemma eqb_empty_false (x : string) : String.eqb x "" = false ↔ x ≠ "".
Proof. apply String.eqb_neq. Qed.

Lemma send_input_Some reqBody to text :
  send_input reqBody = Some (to, text) →
  ∃ b, reqBody = Some b ∧ prop b "recipient" = Some (JStr to)
       ∧ prop b "message" = Some (JStr text) ∧ to ≠ "" ∧ text ≠ "".
Proof.
  unfold send_input. destruct reqBody as [b|]; [|done].
  destruct (prop b "recipient") as [[| | |to'| |]|] eqn:Hr; try done.
  destruct (prop b "message") as [[| | |text'| |]|] eqn:Hm; try done.
  destruct (String.eqb to' "") eqn:E1; [done|].
  destruct (String.eqb text' "") eqn:E2; [done|].
  intros [= <- <-]. exists b. rewrite eqb_empty_false in E1, E2. done.
Qed.

(** An accepted [/send] answers 201 and deposits the new message. *)
Lemma send_accepted e reqBody to text s :
  send_input reqBody = Some (to, text) →
  send e reqBody s =
    ({| status := 201;
        body := SentBody "Message sent successfully" (generateMessageId e)
                  (toLowerCase to) (new_date e) |},
     deposit (newMessage e to text) s).
Proof.
  intros (b & -> & Hr & Hm & Hto & Htext)%send_input_Some.
  apply eqb_empty_false in Hto, Htext.
  unfold send. rewrite Hr, Hm, Hto, Htext.
  destruct b; try done. cbn [recipient id timestamp newMessage] in *.
  f_equal. unfold deposit, mailbox. cbn [recipient newMessage].
  apply map_eq. intros j. rewrite lookup_alter, lookup_insert.
  destruct (s !! toLowerCase to) as [l|] eqn:Hl.
  - case_decide; subst; by rewrite ?Hl.
  - case_decide; [subst; by rewrite lookup_insert_eq|by rewrite lookup_insert_ne].
Qed.

(** A rejected [/send] answers 400 or 500 and leaves the store alone. *)
Lemma send_rejected e reqBody s :
  send_input reqBody = None →
  (send e reqBody s).2 = s
  ∧ (status (send e reqBody s).1 = 400 ∨ status (send e reqBody s).1 = 500).
Proof.
  unfold send_input, send. destruct reqBody as [b|]; [|by auto].
  destruct (prop b "recipient") as [[| | |to'| |]|] eqn:Hr;
    try (destruct b; by auto).
  destruct (String.eqb to' "") eqn:E1; [destruct b; by auto|].
  destruct (prop b "message") as [[| | |text'| |]|] eqn:Hm;
    try (destruct b; by auto).
  destruct (String.eqb text' "") eqn:E2; [destruct b; by auto|done].
Qed.

Lemma lookup_deposit msg s k :
  deposit msg s !! k =
    if decide (recipient msg = k)
    then Some (mailbox s k ++ [msg])%list else s !! k.
Proof. unfold deposit. rewrite lookup_insert. by case_decide; subst. Qed.

Lemma mailbox_deposit msg s k :
  mailbox (deposit msg s) k =
    if decide (recipient msg = k)
    then (mailbox s k ++ [msg])%list else mailbox s k.
Proof. unfold mailbox at 1. rewrite lookup_deposit. by case_decide. Qed.

(** A [/recv] that passes validation answers 200 with the whole mailbox
    of its key and deletes the entry, unless there is nothing to hand out. *)
Lemma recv_valid q k s :
  recv_key q = Some k →
  recv q s =
    if Nat.eqb (length (mailbox s k)) 0 then
      ({| status := 200;
          body := MessagesBody "No messages found for recipient" k [] 0 |},
       s)
    else
      ({| status := 200;
          body := MessagesBody "Messages retrieved successfully" k
                    (view <$> mailbox s k) (length (mailbox s k)) |},
       delete k s).
Proof.
  unfold recv_key, recv. destruct q as [v|]; [|done].
  destruct (truthy v); [|done]. cbn [andb negb].
  destruct (String.eqb (trim (to_String v)) ""); [done|]. cbn [negb].
  by intros [= <-].
Qed.

Lemma recv_invalid q s :
  recv_key q = None → status (recv q s).1 = 400 ∧ (recv q s).2 = s.
Proof.
  unfold recv_key, recv. destruct q as [v|]; [|done].
  destruct (truthy v); [|done]. cbn [andb negb].
  by destruct (String.eqb (trim (to_String v)) "").
Qed.

Lemma mailbox_nil_iff s k :
  mailbox s k = [] ↔ s !! k = None ∨ s !! k = Some [].
Proof.
  unfold mailbox. destruct (s !! k) as [l|]; cbn.
  - split; [intros ->; by right|]. by intros [|[= ->]].
  - split; [by left|done].
Qed.

Lemma recv_returned q k s :
  recv_key q = Some k → returned (recv q s).1 = view <$> mailbox s k.
Proof.
  intros Hq. rewrite (recv_valid _ _ _ Hq).
  destruct (mailbox s k) eqn:E; by cbn.
Qed.

(** After a validated [/recv] nothing is queued under its key, and no
    other entry of the map has changed. *)
Lemma recv_mailbox q k s : recv_key q = Some k → mailbox (recv q s).2 k = [].
Proof.
  intros Hq. rewrite (recv_valid _ _ _ Hq).
  destruct (mailbox s k) eqn:E; cbn; [done|].
  unfold mailbox. by rewrite lookup_delete_eq.
Qed.

Lemma recv_lookup_ne q k s j :
  recv_key q = Some k → k ≠ j → (recv q s).2 !! j = s !! j.
Proof.
  intros Hq Hne. rewrite (recv_valid _ _ _ Hq).
  destruct (mailbox s k) eqn:E; cbn; [done|]. by rewrite lookup_delete_ne.
Qed.

Lemma recv_count q k s :
  recv_key q = Some k →
  returned_count (recv q s).1 = Some (length (returned (recv q s).1)).
Proof.
  intros Hq. rewrite (recv_valid _ _ _ Hq).
  destruct (mailbox s k) eqn:E; cbn; [done|]. by rewrite length_fmap.
Qed.

Lemma recv_status q k s : recv_key q = Some k → status (recv q s).1 = 200.
Proof.
  intros Hq. rewrite (recv_valid _ _ _ Hq). by destruct (mailbox s k).
Qed.

(** A request that does not work on [k] leaves the entry of [k] alone. *)
Lemma handle_lookup_ne r s k :
  target r ≠ Some k → (handle r s).2 !! k = s !! k.
Proof.
  destruct r as [e reqBody|q|]; cbn [handle target]; [| |done].
  - destruct (send_input reqBody) as [[to text]|] eqn:Hin; cbn.
    + intros Hne. rewrite (send_accepted _ _ _ _ _ Hin). cbn [snd].
      rewrite lookup_deposit. case_decide; [|done]. cbn in *. congruence.
    + intros _. by rewrite (proj1 (send_rejected e _ s Hin)).
  - destruct (recv_key q) as [k'|] eqn:Hq.
    + intros Hne. apply (recv_lookup_ne _ _ _ _ Hq). congruence.
    + intros _. by rewrite (proj2 (recv_invalid _ s Hq)).
Qed.

Lemma handle_mailbox_ne r s k :
  target r ≠ Some k → mailbox (handle r s).2 k = mailbox s k.
Proof. intros H. unfold mailbox. by rewrite handle_lookup_ne. Qed.

Lemma handle_target_send e reqBody to text s :
  send_input reqBody = Some (to, text) →
  (handle (PostSend e reqBody) s).2 = deposit (newMessage e to text) s.
Proof. intros Hin. cbn [handle]. by rewrite (send_accepted _ _ _ _ _ Hin). Qed.

(** Conservation: for each key, what the run hands out followed by what is
    still queued is what was queued at the start followed by what the run
    accepted, position by position. *)
Lemma conservation k t s :
  (received k t s ++ (view <$> mailbox (final t s) k))%list
  = view <$> (mailbox s k ++ sent_to k t)%list.
Proof.
  revert s. induction t as [|r t IH]; intros s; cbn [received final sent_to].
  { by rewrite app_nil_r. }
  rewrite <-(assoc_L (++)), IH. destruct r as [e reqBody|q|].
  - destruct (send_input reqBody) as [[to text]|] eqn:Hin.
    + rewrite (handle_target_send _ _ _ _ _ Hin), mailbox_deposit.
      cbn [recipient newMessage app]. case_decide; [|done].
      by rewrite <-(assoc_L (++)).
    + rewrite handle_mailbox_ne; [done|]. cbn [target]. by rewrite Hin.
  - case_decide as Hq.
    + cbn [handle]. rewrite (recv_returned _ _ _ Hq), (recv_mailbox _ _ _ Hq).
      by rewrite !fmap_app.
    + rewrite handle_mailbox_ne; done.
  - done.
Qed.

(** The two invariants of the map are kept by every handler. *)
Lemma deposit_no_empty_entry msg s :
  no_empty_entry s → no_empty_entry (deposit msg s).
Proof.
  intros Hs k l. rewrite lookup_deposit. case_decide; [|by apply Hs].
  intros [= <-]. by destruct (mailbox s k).
Qed.

Lemma deposit_filed_by_recipient msg s :
  filed_by_recipient s → filed_by_recipient (deposit msg s).
Proof.
  intros Hs k l. rewrite lookup_deposit. case_decide; [|by apply Hs].
  intros [= <-]. apply Forall_app. split; [|by apply Forall_singleton].
  unfold mailbox. destruct (s !! k) as [l'|] eqn:Hl; cbn; [by eapply Hs|done].
Qed.

Lemma handle_no_empty_entry r s :
  no_empty_entry s → no_empty_entry (handle r s).2.
Proof.
  intros Hs. destruct r as [e reqBody|q|]; cbn [handle]; [| |done].
  - destruct (send_input reqBody) as [[to text]|] eqn:Hin.
    + rewrite (send_accepted _ _ _ _ _ Hin). by apply deposit_no_empty_entry.
    + by rewrite (proj1 (send_rejected e _ s Hin)).
  - destruct (recv_key q) as [k|] eqn:Hq.
    + rewrite (recv_valid _ _ _ Hq). destruct (mailbox s k); cbn; [done|].
      intros j lj. rewrite lookup_delete. case_decide; [done|]. apply Hs.
    + by rewrite (proj2 (recv_invalid _ s Hq)).
Qed.

Lemma handle_filed_by_recipient r s :
  filed_by_recipient s → filed_by_recipient (handle r s).2.
Proof.
  intros Hs. destruct r as [e reqBody|q|]; cbn [handle]; [| |done].
  - destruct (send_input reqBody) as [[to text]|] eqn:Hin.
    + rewrite (send_accepted _ _ _ _ _ Hin).
      by apply deposit_filed_by_recipient.
    + by rewrite (proj1 (send_rejected e _ s Hin)).
  - destruct (recv_key q) as [k|] eqn:Hq.
    + rewrite (recv_valid _ _ _ Hq). destruct (mailbox s k); cbn; [done|].
      intros j lj. rewrite lookup_delete. case_decide; [done|]. apply Hs.
    + by rewrite (proj2 (recv_invalid _ s Hq)).
Qed.

Lemma final_no_empty_entry t s :
  no_empty_entry s → no_empty_entry (final t s).
Proof.
  revert s. induction t as [|r t IH]; intros s Hs; cbn [final]; [done|].
  by apply IH, handle_no_empty_entry.
Qed.

Lemma final_filed_by_recipient t s :
  filed_by_recipient s → filed_by_recipient (final t s).
Proof.
  revert s. induction t as [|r t IH]; intros s Hs; cbn [final]; [done|].
  by apply IH, handle_filed_by_recipient.
Qed.

Lemma empty_no_empty_entry : no_empty_entry ∅.
Proof. intros k l. by rewrite lookup_empty. Qed.

Lemma empty_filed_by_recipient : filed_by_recipient ∅.
Proof. intros k l. by rewrite lookup_empty. Qed.

Lemma nonempty_mailboxes_size s :
  no_empty_entry s → nonempty_mailboxes s = size s.
Proof.
  intros Hs. unfold nonempty_mailboxes. f_equal.
  apply map_filter_id. intros k l Hl. by eapply Hs.
Qed.

Lemma final_app t1 t2 s : final (t1 ++ t2) s = final t2 (final t1 s).
Proof. revert s. induction t1 as [|r t1 IH]; intros s; cbn; [done|apply IH]. Qed.
End handlers.

(** ** Facts about strings *)

Section strings.
Lemma trimEnd_keeps c x : is_space c = false → trimEnd (String c x) ≠ "".
Proof. intros Hc. cbn. rewrite Hc. by destruct (trimEnd x). Qed.

Lemma trim_empty_iff x : trim x = "" ↔ all_space x = true.
Proof.
  unfold trim. induction x as [|c x IH]; [done|].
  cbn [trimStart all_space]. destruct (is_space c) eqn:Hc; [done|].
  split; [|done]. intros H. by apply trimEnd_keeps in H.
Qed.

Lemma trim_nonempty x : trim x ≠ "" → x ≠ "".
Proof. by intros H ->. Qed.

Lemma is_space_lower_unit c : is_space (lower_unit c) = is_space c.
Proof. by destruct c as [[] [] [] [] [] [] [] []]. Qed.

Lemma all_space_toLowerCase x : all_space (toLowerCase x) = all_space x.
Proof.
  induction x as [|c x IH]; [done|]. cbn. by rewrite is_space_lower_unit, IH.
Qed.

(** Blankness is a property of the case-folded key. *)
Lemma trim_case_variant x y :
  toLowerCase x = toLowerCase y → trim y ≠ "" → trim x ≠ "".
Proof.
  intros Hxy. rewrite !trim_empty_iff.
  by rewrite <-(all_space_toLowerCase x), Hxy, all_space_toLowerCase.
Qed.

Lemma append_inj_length (a b c d : string) :
  String.length a = String.length c → a +:+ b = c +:+ d → a = c ∧ b = d.
Proof.
  revert c. induction a as [|x a IH]; intros [|y c]; cbn; try done.
  intros [= Hlen] [= -> Happ]. destruct (IH _ Hlen Happ) as [-> ->]. done.
Qed.

Lemma recv_key_string x :
  trim x ≠ "" → recv_key (Some (QStr x)) = Some (toLowerCase x).
Proof.
  intros Hx. unfold recv_key. cbn [truthy to_String].
  apply trim_nonempty in Hx as Hne.
  apply eqb_empty_false in Hx, Hne. by rewrite Hx, Hne.
Qed.

Lemma send_input_intro b to text :
  prop b "recipient" = Some (JStr to) → prop b "message" = Some (JStr text) →
  to ≠ "" → text ≠ "" → send_input (Some b) = Some (to, text).
Proof.
  intros Hr Hm Hto Htext. apply eqb_empty_false in Hto, Htext.
  unfold send_input. by rewrite Hr, Hm, Hto, Htext.
Qed.
End strings.

Section runs.
Implicit Types (s : gmap string (list Message)) (k : string).

Lemma received_no_recv k t s :
  forallb (λ r, negb (recv_on k r)) t = true → received k t s = [].
Proof.
  revert s. induction t as [|r t IH]; intros s; cbn [forallb received]; [done|].
  intros [Hr Ht]%andb_true_iff. rewrite (IH _ Ht), app_nil_r.
  destruct r as [|q|]; [done| |done]. cbn in Hr.
  apply negb_true_iff, bool_decide_eq_false in Hr. by rewrite decide_False.
Qed.

Lemma send_input_body to text :
  to ≠ "" → text ≠ "" → send_input (send_body to text) = Some (to, text).
Proof. intros. by apply send_input_intro. Qed.

Lemma posts_no_recv k ms : forallb (λ r, negb (recv_on k r)) (posts ms) = true.
Proof. induction ms as [|m ms IH]; [done|]. cbn. exact IH. Qed.

Lemma sent_to_posts k ms :
  Forall (λ m, m.1.2 ≠ "" ∧ m.2 ≠ "" ∧ toLowerCase m.1.2 = k) ms →
  sent_to k (posts ms) = (λ m, newMessage m.1.1 m.1.2 m.2) <$> ms.
Proof.
  induction 1 as [|[[e to] text] ms (Hto & Htext & Hk) _ IH]; [done|].
  cbn [posts fmap list_fmap sent_to fst snd] in *.
  rewrite (send_input_body _ _ Hto Htext), decide_True by done. by f_equal.
Qed.

Lemma size_deposit msg s :
  size (deposit msg s) =
    match s !! recipient msg with Some _ => size s | None => S (size s) end.
Proof.
  unfold deposit. rewrite map_size_insert. by destruct (s !! recipient msg).
Qed.

Lemma size_final_nonempty t :
  nonempty_mailboxes (final t ∅) = size (final t ∅).
Proof.
  apply nonempty_mailboxes_size, final_no_empty_entry, empty_no_empty_entry.
Qed.

Lemma send_reported_id e reqBody s i :
  reported_id (send e reqBody s).1 = Some i → i = generateMessageId e.
Proof.
  destruct (send_input reqBody) as [[to text]|] eqn:Hin.
  - rewrite (send_accepted _ _ _ _ _ Hin). cbn. by intros [= <-].
  - revert Hin. unfold send_input, send. destruct reqBody as [b|]; [|done].
    destruct (prop b "recipient") as [[| | |to'| |]|] eqn:Hr;
      try (destruct b; by auto).
    destruct (String.eqb to' "") eqn:E1; [destruct b; by auto|].
    destruct (prop b "message") as [[| | |text'| |]|] eqn:Hm;
      try (destruct b; by auto).
    destruct (String.eqb text' "") eqn:E2; [destruct b; by auto|done].
Qed.
End runs.

(** ** The scenarios of the test suite, run on the model *)

Section scenarios.
Example post_send_created :
  (send env_a (send_body "alice" "Hello, Alice!") ∅).1
  = {| status := 201;
       body := SentBody "Message sent successfully" "17620416000004fzyo82mv"
                        "alice" 1762041600000 |}.
Proof. reflexivity. Qed.

Example post_send_recipient_not_a_string :
  send env_a (Some (JObj [("recipient", JNum 123); ("message", JStr "Hello!")])) ∅
  = (invalid_recipient "Recipient is required and must be a string", ∅).
Proof. reflexivity. Qed.

Example post_send_message_missing :
  send env_a (Some (JObj [("recipient", JStr "alice")])) ∅
  = (invalid_message, ∅).
Proof. reflexivity. Qed.

Example post_send_without_body :
  send env_a None ∅ = (internal_error "Failed to send message", ∅).
Proof. reflexivity. Qed.

Example get_recv_numeric_recipient :
  recv (Some (QStr "123")) ∅
  = ({| status := 200;
        body := MessagesBody "No messages found for recipient" "123" [] 0 |},
     ∅).
Proof. reflexivity. Qed.

Example get_recv_empty_recipient :
  recv (Some (QStr "")) ∅
  = (invalid_recipient "Recipient parameter is required", ∅).
Proof. reflexivity. Qed.

Example get_recv_upper_case :
  responses [PostSend env_a (send_body "eve" "Hello, Eve!");
             GetRecv (Some (QStr "EVE"))] ∅
  = [{| status := 201;
        body := SentBody "Message sent successfully" "17620416000004fzyo82mv"
                         "eve" 1762041600000 |};
     {| status := 200;
        body := MessagesBody "Messages retrieved successfully" "eve"
                  [{| view_id := "17620416000004fzyo82mv";
                      view_content := "Hello, Eve!";
                      view_timestamp := 1762041600000 |}] 1 |}].
Proof. reflexivity. Qed.

Example get_health_after_two_sends :
  (health (final [PostSend env_a (send_body "alice" "Hello");
                  PostSend env_b (send_body "bob" "Hello")] ∅)).1
  = {| status := 200; body := HealthBody "Message server is running" 2 |}.
Proof. reflexivity. Qed.
End scenarios.

(** ** Properties of the mailbox store *)

(** C1. A [/recv] that passes validation hands out exactly what was queued
    under its key and leaves nothing queued there, touching no other entry;
    asked again at once it hands out nothing; and in every later run each
    key hands out, position by position, only what is queued at that moment
    (nothing, for the drained key) followed by what is sent afterwards. *)
Theorem recv_drains_exactly_once (q : option QueryValue) (k : string)
    (s : gmap string (list Message)) :
  recv_key q = Some k →
  let resp := (recv q s).1 in
  let s' := (recv q s).2 in
  status resp = 200
  ∧ returned resp = view <$> mailbox s k
  ∧ returned_count resp = Some (length (mailbox s k))
  ∧ mailbox s' k = []
  ∧ (∀ j, j ≠ k → s' !! j = s !! j)
  ∧ returned (recv q s').1 = []
  ∧ returned_count (recv q s').1 = Some 0
  ∧ ∀ t j,
      (received j t s' ++ (view <$> mailbox (final t s') j))%list
      = view <$> ((if decide (j = k) then [] else mailbox s j) ++ sent_to j t)%list.
Proof.
  intros Hq resp s'. subst resp s'.
  pose proof (recv_mailbox q k s Hq) as Hnil.
  split; [by eapply recv_status|].
  split; [by apply recv_returned|].
  split. { rewrite (recv_count _ _ _ Hq), (recv_returned _ _ _ Hq).
           by rewrite length_fmap. }
  split; [done|].
  split. { intros j Hj. by apply (recv_lookup_ne _ _ _ _ Hq). }
  split. { by rewrite (recv_returned _ _ _ Hq), Hnil. }
  split. { rewrite (recv_count _ _ _ Hq), (recv_returned _ _ _ Hq).
           by rewrite Hnil. }
  intros t j. rewrite conservation. case_decide as Hj; [by subst; rewrite Hnil|].
  unfold mailbox at 1. by rewrite (recv_lookup_ne _ _ _ _ Hq).
Qed.

Lemma recv_drains_exactly_once_witness :
  recv_key (Some (QStr "David")) = Some "david"
  ∧ returned (recv (Some (QStr "David"))
                (final [PostSend env_a (send_body "david" "Test message")] ∅)).1
    = [{| view_id := "17620416000004fzyo82mv";
          view_content := "Test message";
          view_timestamp := 1762041600000 |}]
  ∧ returned (recv (Some (QStr "David"))
                (recv (Some (QStr "David"))
                   (final [PostSend env_a (send_body "david" "Test message")]
                      ∅)).2).1
    = [].
Proof.
  pose proof (recv_drains_exactly_once (Some (QStr "David")) "david"
                (final [PostSend env_a (send_body "david" "Test message")] ∅)
                eq_refl) as (_ & H2 & _ & _ & _ & H6 & _).
  split; [reflexivity|]. split; [rewrite H2; reflexivity|exact H6].
Defined.

(** C2, as stated: a [/send] whose recipient or content is empty after
    trimming leaves the store unchanged.  It fails: white-space content is
    not trimmed by the handler, the message is stored. *)
Lemma send_blank_content_is_stored :
  trim " " = ""
  ∧ mailbox (send env_a (send_body "bob" " ") ∅).2 "bob"
    = [newMessage env_a "bob" " "]
  ∧ (send env_a (send_body "bob" " ") ∅).2 ≠ ∅.
Proof.
  split; [reflexivity|]. split; [reflexivity|].
  intros H. apply (f_equal (λ m, mailbox m "bob")) in H. discriminate H.
Qed.

(** C2, amended. A [/send] whose [recipient] or [message] is missing, not a
    string or the empty string is answered 400 (500 when there is no body)
    and leaves the store unchanged, so the store is only changed by a
    [/send] whose two fields are non-empty strings.  The content is not
    trimmed: with a recipient that is non-empty after trimming, any
    non-empty content, white space included, is accepted and stored. *)
Theorem send_validation (e : Env) (reqBody : option Json)
    (s : gmap string (list Message)) :
  (¬ nonempty_string (field reqBody "recipient")
   ∨ ¬ nonempty_string (field reqBody "message") →
   (send e reqBody s).2 = s
   ∧ (status (send e reqBody s).1 = 400 ∨ status (send e reqBody s).1 = 500))
  ∧ ((send e reqBody s).2 ≠ s →
     nonempty_string (field reqBody "recipient")
     ∧ nonempty_string (field reqBody "message"))
  ∧ (∀ to text,
       field reqBody "recipient" = Some (JStr to) →
       field reqBody "message" = Some (JStr text) →
       trim to ≠ "" → text ≠ "" →
       status (send e reqBody s).1 = 201
       ∧ (send e reqBody s).2 ≠ s
       ∧ mailbox (send e reqBody s).2 (toLowerCase to)
         = (mailbox s (toLowerCase to) ++ [newMessage e to text])%list).
Proof.
  assert (Hrej : send_input reqBody = None →
                 (send e reqBody s).2 = s
                 ∧ (status (send e reqBody s).1 = 400
                    ∨ status (send e reqBody s).1 = 500))
    by apply send_rejected.
  assert (Hacc : ∀ to text, send_input reqBody = Some (to, text) →
                 nonempty_string (field reqBody "recipient")
                 ∧ nonempty_string (field reqBody "message")).
  { intros to text (b & -> & Hr & Hm & Hto & Htext)%send_input_Some.
    cbn [field]. rewrite Hr, Hm. split; eexists; eauto. }
  split; [|split].
  - intros Hbad. destruct (send_input reqBody) as [[to text]|] eqn:Hin; [|auto].
    destruct (Hacc _ _ eq_refl). tauto.
  - intros Hne. destruct (send_input reqBody) as [[to text]|] eqn:Hin; [eauto|].
    by destruct (Hrej eq_refl).
  - intros to text Hr Hm Hto Htext. destruct reqBody as [b|]; [|done].
    cbn [field] in Hr, Hm. apply trim_nonempty in Hto.
    pose proof (send_input_intro _ _ _ Hr Hm Hto Htext) as Hin.
    rewrite (send_accepted _ _ _ _ _ Hin). cbn [fst snd status].
    assert (Hbox : mailbox (deposit (newMessage e to text) s) (toLowerCase to)
                   = (mailbox s (toLowerCase to) ++ [newMessage e to text])%list).
    { rewrite mailbox_deposit. by rewrite decide_True. }
    split; [done|]. split; [|done].
    intros Heq. rewrite Heq in Hbox.
    apply (f_equal length) in Hbox. rewrite length_app in Hbox. cbn in Hbox. lia.
Qed.

Lemma send_validation_witness :
  (send env_a (send_body "" "hi") ∅).2 = ∅
  ∧ (send env_a (send_body "bob" "") ∅).2 = ∅
  ∧ status (send env_a (send_body "bob" "hi") ∅).1 = 201
  ∧ mailbox (send env_a (send_body "bob" "hi") ∅).2 "bob"
    = [newMessage env_a "bob" "hi"].
Proof.
  split; [|split].
  - apply (send_validation env_a (send_body "" "hi") ∅). left.
    intros (x & [= <-] & Hx). by apply Hx.
  - apply (send_validation env_a (send_body "bob" "") ∅). right.
    intros (x & [= <-] & Hx). by apply Hx.
  - destruct (send_validation env_a (send_body "bob" "hi") ∅) as (_ & _ & H).
    destruct (H "bob" "hi" eq_refl eq_refl) as (H1 & _ & H3);
      [by vm_compute | done | ].
    split; [exact H1 | exact H3].
Defined.

(** C3. A message sent to [to] is handed out by a [/recv] for any case
    variant [to'] of [to], and both responses report the lower-cased key. *)
Theorem case_insensitive_delivery (e : Env) (b : Json) (to text to' : string)
    (s : gmap string (list Message)) :
  prop b "recipient" = Some (JStr to) →
  prop b "message" = Some (JStr text) →
  trim to ≠ "" → text ≠ "" →
  toLowerCase to' = toLowerCase to →
  let sent := send e (Some b) s in
  let got := recv (Some (QStr to')) sent.2 in
  status sent.1 = 201
  ∧ reported_recipient sent.1 = Some (toLowerCase to)
  ∧ status got.1 = 200
  ∧ reported_recipient got.1 = Some (toLowerCase to)
  ∧ returned got.1
    = view <$> (mailbox s (toLowerCase to) ++ [newMessage e to text])%list
  ∧ returned_count got.1 = Some (S (length (mailbox s (toLowerCase to)))).
Proof.
  intros Hr Hm Hto Htext Hcase sent got. subst sent got.
  pose proof (send_input_intro _ _ _ Hr Hm (trim_nonempty _ Hto) Htext) as Hin.
  rewrite (send_accepted _ _ _ _ _ Hin). cbn [fst snd status].
  split; [done|]. split; [done|].
  assert (Hq : recv_key (Some (QStr to')) = Some (toLowerCase to)).
  { rewrite <-Hcase. apply recv_key_string. by eapply trim_case_variant. }
  assert (Hbox : mailbox (deposit (newMessage e to text) s) (toLowerCase to)
                 = (mailbox s (toLowerCase to) ++ [newMessage e to text])%list).
  { rewrite mailbox_deposit. by rewrite decide_True. }
  split; [by eapply recv_status|].
  split. { rewrite (recv_valid _ _ _ Hq), Hbox.
           by destruct (mailbox s (toLowerCase to)). }
  split. { by rewrite (recv_returned _ _ _ Hq), Hbox. }
  rewrite (recv_count _ _ _ Hq), (recv_returned _ _ _ Hq), Hbox.
  rewrite length_fmap, length_app. cbn. f_equal. lia.
Qed.

Lemma case_insensitive_delivery_witness :
  returned (recv (Some (QStr "alice"))
              (send env_a (send_body "Alice" "hi") ∅).2).1
  = [view (newMessage env_a "Alice" "hi")]
  ∧ reported_recipient (send env_a (send_body "Alice" "hi") ∅).1 = Some "alice"
  ∧ reported_recipient
      (recv (Some (QStr "alice"))
         (send env_a (send_body "Alice" "hi") ∅).2).1 = Some "alice".
Proof.
  destruct (case_insensitive_delivery env_a
              (JObj [("recipient", JStr "Alice"); ("message", JStr "hi")])
              "Alice" "hi" "alice" ∅ eq_refl eq_refl)
    as (_ & H2 & _ & H4 & H5 & _); [by vm_compute | done | reflexivity | ].
  split; [exact H5|]. split; [exact H2 | exact H4].
Defined.

(** C4. With no [/recv] for key [k] in between, a [/recv] for [k] hands out
    what was queued under [k] before followed by the messages sent to [k],
    in the order of the sends; after posts [m1 .. mn] to an empty mailbox
    it hands out exactly [m1 .. mn] in that order. *)
Theorem arrival_order (k : string) (t : list Request) (q : option QueryValue)
    (s : gmap string (list Message)) :
  forallb (λ r, negb (recv_on k r)) t = true →
  recv_key q = Some k →
  returned (recv q (final t s)).1 = view <$> (mailbox s k ++ sent_to k t)%list
  ∧ returned_count (recv q (final t s)).1
    = Some (length (mailbox s k) + length (sent_to k t))
  ∧ ∀ ms : list (Env * string * string),
      Forall (λ m, m.1.2 ≠ "" ∧ m.2 ≠ "" ∧ toLowerCase m.1.2 = k) ms →
      mailbox s k = [] →
      returned (recv q (final (posts ms) s)).1
      = (λ m, view (newMessage m.1.1 m.1.2 m.2)) <$> ms.
Proof.
  intros Ht Hq.
  assert (Hgen : ∀ t', forallb (λ r, negb (recv_on k r)) t' = true →
            returned (recv q (final t' s)).1
            = view <$> (mailbox s k ++ sent_to k t')%list).
  { intros t' Ht'. rewrite (recv_returned _ _ _ Hq).
    by rewrite <-conservation, (received_no_recv _ _ _ Ht'). }
  split; [by apply Hgen|]. split.
  - rewrite (recv_count _ _ _ Hq), (Hgen _ Ht).
    by rewrite length_fmap, length_app.
  - intros ms Hms Hnil. rewrite (Hgen _ (posts_no_recv k ms)), Hnil.
    rewrite (sent_to_posts _ _ Hms). cbn [app]. by rewrite <-list_fmap_compose.
Qed.

Lemma arrival_order_witness :
  returned
    (recv (Some (QStr "bob"))
       (final [PostSend env_a (send_body "bob" "First message");
               PostSend env_b (send_body "Bob" "Second message");
               GetHealth;
               PostSend env_a (send_body "carol" "Hello");
               PostSend env_b (send_body "BOB" "Third message")] ∅)).1
  = [view (newMessage env_a "bob" "First message");
     view (newMessage env_b "Bob" "Second message");
     view (newMessage env_b "BOB" "Third message")].
Proof.
  destruct (arrival_order "bob"
              [PostSend env_a (send_body "bob" "First message");
               PostSend env_b (send_body "Bob" "Second message");
               GetHealth;
               PostSend env_a (send_body "carol" "Hello");
               PostSend env_b (send_body "BOB" "Third message")]
              (Some (QStr "bob")) ∅ eq_refl eq_refl) as [H _].
  exact H.
Defined.

(** C5. A [/recv] for a key with nothing queued answers 200 with no
    messages and count 0, leaves the store as it is, and gives the same
    answer when repeated; a key just drained is such a key. *)
Theorem recv_empty_mailbox (q : option QueryValue) (k : string)
    (s : gmap string (list Message)) :
  recv_key q = Some k →
  mailbox s k = [] →
  recv q s
  = ({| status := 200;
        body := MessagesBody "No messages found for recipient" k [] 0 |}, s)
  ∧ recv q (recv q s).2 = recv q s
  ∧ ∀ s0, mailbox (recv q s0).2 k = [].
Proof.
  intros Hq Hnil.
  assert (H : recv q s
    = ({| status := 200;
          body := MessagesBody "No messages found for recipient" k [] 0 |}, s)).
  { by rewrite (recv_valid _ _ _ Hq), Hnil. }
  split; [done|]. split; [by rewrite H|].
  intros s0. by apply recv_mailbox.
Qed.

Lemma recv_empty_mailbox_witness :
  recv (Some (QStr "nonexistent")) ∅
  = ({| status := 200;
        body := MessagesBody "No messages found for recipient" "nonexistent"
                  [] 0 |}, ∅).
Proof.
  destruct (recv_empty_mailbox (Some (QStr "nonexistent")) "nonexistent" ∅)
    as [H _]; [reflexivity | reflexivity | exact H].
Defined.

(** C6. [/health] reports the number of keys with a non-empty mailbox and
    does not change the store; after sends to two distinct new recipients
    the number has grown by two (it is 2 from the empty store), and after
    draining one of them by one (it is 1). *)
Theorem health_total_recipients (t : list Request) (e1 e2 : Env)
    (to1 text1 to2 text2 : string) :
  let s := final t ∅ in
  let s2 := final [PostSend e1 (send_body to1 text1);
                   PostSend e2 (send_body to2 text2)] s in
  let s3 := final [GetRecv (Some (QStr to1))] s2 in
  trim to1 ≠ "" → text1 ≠ "" → to2 ≠ "" → text2 ≠ "" →
  toLowerCase to1 ≠ toLowerCase to2 →
  s !! toLowerCase to1 = None →
  s !! toLowerCase to2 = None →
  health s
  = ({| status := 200;
        body := HealthBody "Message server is running" (nonempty_mailboxes s) |},
     s)
  ∧ health s2
    = ({| status := 200;
          body := HealthBody "Message server is running"
                             (nonempty_mailboxes s + 2) |}, s2)
  ∧ nonempty_mailboxes s2 = nonempty_mailboxes s + 2
  ∧ health s3
    = ({| status := 200;
          body := HealthBody "Message server is running"
                             (nonempty_mailboxes s + 1) |}, s3)
  ∧ nonempty_mailboxes s3 = nonempty_mailboxes s + 1.
Proof.
  intros s s2 s3 Hto1 Htext1 Hto2 Htext2 Hne Hnew1 Hnew2.
  pose proof (send_input_body _ _ (trim_nonempty _ Hto1) Htext1) as Hin1.
  pose proof (send_input_body _ _ Hto2 Htext2) as Hin2.
  assert (Hs2 : s2 = final (t ++ [PostSend e1 (send_body to1 text1);
                                  PostSend e2 (send_body to2 text2)]) ∅).
  { by rewrite final_app. }
  assert (Hstore2 : s2 = deposit (newMessage e2 to2 text2)
                           (deposit (newMessage e1 to1 text1) s)).
  { subst s2. cbn [final handle].
    by rewrite (send_accepted _ _ _ _ _ Hin1), (send_accepted _ _ _ _ _ Hin2). }
  clearbody s2.
  assert (Hs3 : s3 = final ((t ++ [PostSend e1 (send_body to1 text1);
                                   PostSend e2 (send_body to2 text2)])
                            ++ [GetRecv (Some (QStr to1))]) ∅).
  { by rewrite final_app, <-Hs2. }
  assert (Hn : nonempty_mailboxes s = size s) by apply size_final_nonempty.
  assert (Hn2 : nonempty_mailboxes s2 = size s2).
  { rewrite Hs2. apply size_final_nonempty. }
  assert (Hn3 : nonempty_mailboxes s3 = size s3).
  { rewrite Hs3. apply size_final_nonempty. }
  assert (Hsize2 : size s2 = size s + 2).
  { rewrite Hstore2, !size_deposit. cbn [recipient newMessage].
    rewrite lookup_deposit, decide_False by done. rewrite Hnew1, Hnew2. lia. }
  assert (Hsize3 : size s3 = size s + 1).
  { subst s3. cbn [final handle].
    rewrite (recv_valid _ _ _ (recv_key_string _ Hto1)).
    assert (Hbox : s2 !! toLowerCase to1 = Some [newMessage e1 to1 text1]).
    { rewrite Hstore2, lookup_deposit, decide_False by done.
      rewrite lookup_deposit, decide_True by done.
      unfold mailbox. by rewrite Hnew1. }
    unfold mailbox. rewrite Hbox. cbn.
    rewrite map_size_delete, Hbox, Hsize2. cbn. lia. }
  unfold health. rewrite Hn2, Hn3, Hn, Hsize2, Hsize3. done.
Qed.

Lemma health_total_recipients_witness :
  (health ∅).1
  = {| status := 200; body := HealthBody "Message server is running" 0 |}
  ∧ (health (final [PostSend env_a (send_body "alice" "Hello");
                    PostSend env_b (send_body "bob" "Hello")] ∅)).1
    = {| status := 200; body := HealthBody "Message server is running" 2 |}
  ∧ (health (final [GetRecv (Some (QStr "alice"))]
               (final [PostSend env_a (send_body "alice" "Hello");
                       PostSend env_b (send_body "bob" "Hello")] ∅))).1
    = {| status := 200; body := HealthBody "Message server is running" 1 |}.
Proof.
  destruct (health_total_recipients [] env_a env_b "alice" "Hello" "bob" "Hello")
    as (H1 & H2 & _ & H4 & _);
    [by vm_compute | done | done | done | by vm_compute
    | reflexivity | reflexivity | ].
  split; [exact (f_equal fst H1)|].
  split; [exact (f_equal fst H2) | exact (f_equal fst H4)].
Defined.

(** C7. For distinct keys [k1] and [k2], a request that works on [k1] (an
    accepted send or a validated receive) leaves the entry of [k2] as it
    is.  An accepted message is put at the end of the mailbox of its
    lower-cased recipient, stays queued there under every request that does
    not work on that key, and in every store the server reaches each queued
    message sits under the key its [recipient] field names, so in no other
    mailbox. *)
Theorem per_recipient_isolation (k1 k2 : string) :
  k1 ≠ k2 →
  (∀ r s, target r = Some k1 → (handle r s).2 !! k2 = s !! k2)
  ∧ (∀ e reqBody to text s,
       send_input reqBody = Some (to, text) →
       mailbox (send e reqBody s).2 (toLowerCase to)
       = (mailbox s (toLowerCase to) ++ [newMessage e to text])%list
       ∧ recipient (newMessage e to text) = toLowerCase to)
  ∧ (∀ r s k, target r ≠ Some k → mailbox (handle r s).2 k = mailbox s k)
  ∧ (∀ t k k' msg,
       msg ∈ mailbox (final t ∅) k → msg ∈ mailbox (final t ∅) k' →
       k = recipient msg ∧ k' = k).
Proof.
  intros Hne. split; [|split; [|split]].
  - intros r s Hr. apply handle_lookup_ne. congruence.
  - intros e reqBody to text s Hin. rewrite (send_accepted _ _ _ _ _ Hin).
    cbn [snd]. rewrite mailbox_deposit. by rewrite decide_True.
  - intros r s k. apply handle_mailbox_ne.
  - assert (Hfiled : ∀ t k msg,
              msg ∈ mailbox (final t ∅) k → recipient msg = k).
    { intros t k msg. unfold mailbox.
      destruct (final t ∅ !! k) as [l|] eqn:Hl; cbn; [|by intros ?%elem_of_nil].
      pose proof (final_filed_by_recipient t ∅ empty_filed_by_recipient k l Hl)
        as Hall.
      rewrite Forall_forall in Hall. apply Hall. }
    intros t k k' msg Hk Hk'. apply Hfiled in Hk, Hk'. by subst.
Qed.

Lemma per_recipient_isolation_witness :
  mailbox (final [PostSend env_a (send_body "frank" "Hello, Frank!");
                  PostSend env_b (send_body "grace" "Hello, Grace!");
                  GetRecv (Some (QStr "frank"))] ∅) "grace"
  = mailbox (final [PostSend env_a (send_body "frank" "Hello, Frank!");
                    PostSend env_b (send_body "grace" "Hello, Grace!")] ∅)
            "grace".
Proof.
  assert (Hne : "frank" ≠ "grace") by done.
  destruct (per_recipient_isolation "frank" "grace" Hne) as (H & _).
  unfold mailbox. cbn [final].
  exact (f_equal (default [])
           (H (GetRecv (Some (QStr "frank")))
              (final [PostSend env_a (send_body "frank" "Hello, Frank!");
                      PostSend env_b (send_body "grace" "Hello, Grace!")] ∅)
              eq_refl)).
Defined.

(** C8, as stated: any two [/send] calls of one process get distinct ids.
    It fails: the id is the clock reading followed by a random draw, and
    two sends that read the same millisecond and draw the same number get
    the same id. *)
Lemma same_reading_same_id :
  responses [PostSend env_a (send_body "alice" "one");
             PostSend env_a (send_body "bob" "two")] ∅
  = [{| status := 201;
        body := SentBody "Message sent successfully"
                  "17620416000004fzyo82mv" "alice" 1762041600000 |};
     {| status := 201;
        body := SentBody "Message sent successfully"
                  "17620416000004fzyo82mv" "bob" 1762041600000 |}].
Proof. reflexivity. Qed.

(** C8, amended. The id of an accepted [/send] is the decimal [Date.now()]
    followed by at most nine characters of the base-36 random draw after
    its first two.  Two sends whose clock readings have the same number of
    digits get the same id exactly when the readings are equal and the
    random parts are equal; otherwise their ids are distinct. *)
Theorem message_id_distinct (e1 e2 : Env) (b1 b2 : option Json)
    (s1 s2 : gmap string (list Message)) (i1 i2 : string) :
  reported_id (send e1 b1 s1).1 = Some i1 →
  reported_id (send e2 b2 s2).1 = Some i2 →
  String.length (pretty (date_now e1)) = String.length (pretty (date_now e2)) →
  i1 = pretty (date_now e1) +:+ substr 2 9 (random_36 e1)
  ∧ i2 = pretty (date_now e2) +:+ substr 2 9 (random_36 e2)
  ∧ (i1 = i2 ↔
     date_now e1 = date_now e2
     ∧ substr 2 9 (random_36 e1) = substr 2 9 (random_36 e2)).
Proof.
  intros ->%send_reported_id ->%send_reported_id Hlen.
  unfold generateMessageId. split; [done|]. split; [done|]. split.
  - intros [Hnow Hrand]%append_inj_length; [|done].
    split; [|done]. by apply (inj pretty).
  - by intros [-> ->].
Qed.

Lemma message_id_distinct_witness :
  reported_id (send env_a (send_body "alice" "one") ∅).1
  = Some "17620416000004fzyo82mv"
  ∧ reported_id (send env_b (send_body "alice" "two") ∅).1
    = Some "1762041600007k2x9q0c1d"
  ∧ "17620416000004fzyo82mv" ≠ "1762041600007k2x9q0c1d".
Proof.
  split; [reflexivity|]. split; [reflexivity|].
  destruct (message_id_distinct env_a env_b
              (send_body "alice" "one") (send_body "alice" "two") ∅ ∅
              "17620416000004fzyo82mv" "1762041600007k2x9q0c1d")
    as (_ & _ & H); [reflexivity | reflexivity | reflexivity | ].
  intros Heq. apply H in Heq as [Hnow _]. discriminate Hnow.
Defined.

Section query_values.
Implicit Types (s : gmap string (list Message)) (v : QueryValue).

Lemma all_space_append (x y : string) :
  all_space (x +:+ y) = all_space x && all_space y.
Proof.
  induction x as [|c x IH]; [done|].
  change (String c x +:+ y) with (String c (x +:+ y)). cbn [all_space].
  by rewrite IH, andb_assoc.
Qed.

(** Two or more strings joined by commas are never blank: there is a comma
    among them. *)
Lemma join_comma_not_blank (l : list string) :
  (2 ≤ length l)%nat → trim (join_comma l) ≠ "".
Proof.
  destruct l as [|x [|y l]]; cbn [length]; [lia|lia|]. intros _.
  rewrite trim_empty_iff. cbn [join_comma].
  rewrite all_space_append. change ("," +:+ ?z) with (String "," z).
  cbn [all_space]. by rewrite andb_false_r.
Qed.

(** A truthy query value whose string is not blank is looked up under the
    lower-cased string. *)
Lemma recv_coerced v :
  truthy v = true → trim (to_String v) ≠ "" →
  recv_key (Some v) = Some (toLowerCase (to_String v)).
Proof.
  intros Htruthy Hkey. unfold recv_key. apply eqb_empty_false in Hkey.
  by rewrite Htruthy, Hkey.
Qed.
End query_values.

(** C9. [/recv] answers 400 to a missing and to an empty [recipient].  A
    [recipient] that is not a string reaches the handler as the array of the
    two or more values given for the parameter (a parameter given once is a
    string).  Such a value is not rejected: it is turned into a string, the
    values joined by commas, lower-cased and looked up as a key like any
    other, with no messages and count 0 when nothing is queued under it.
    An object in the place of the value is treated the same way. *)
Theorem recv_query_coercion (items : list QueryItem)
    (s : gmap string (list Message)) :
  (2 ≤ length items)%nat →
  let k := toLowerCase (to_String (QArr items)) in
  recv None s = (invalid_recipient "Recipient parameter is required", s)
  ∧ recv (Some (QStr "")) s
    = (invalid_recipient "Recipient parameter is required", s)
  ∧ status (recv (Some (QArr items)) s).1 = 200
  ∧ reported_recipient (recv (Some (QArr items)) s).1 = Some k
  ∧ returned (recv (Some (QArr items)) s).1 = view <$> mailbox s k
  ∧ (mailbox s k = [] → recv (Some (QArr items)) s = (no_messages k, s))
  ∧ status (recv (Some QObj) s).1 = 200
  ∧ reported_recipient (recv (Some QObj) s).1 = Some (toLowerCase object_Object)
  ∧ returned (recv (Some QObj) s).1
    = view <$> mailbox s (toLowerCase object_Object).
Proof.
  intros Hlen k. split; [done|]. split; [done|].
  assert (Hq : recv_key (Some (QArr items)) = Some k).
  { apply recv_coerced; [done|]. cbn [to_String].
    apply join_comma_not_blank. by rewrite length_fmap. }
  assert (Ho : recv_key (Some QObj) = Some (toLowerCase object_Object))
    by reflexivity.
  split; [by eapply recv_status|].
  split. { rewrite (recv_valid _ _ _ Hq). by destruct (mailbox s k). }
  split; [by apply recv_returned|].
  split. { intros Hnil. by rewrite (recv_valid _ _ _ Hq), Hnil. }
  split; [by eapply recv_status|].
  split. { rewrite (recv_valid _ _ _ Ho).
           by destruct (mailbox s (toLowerCase object_Object)). }
  by apply recv_returned.
Qed.

Lemma recv_query_coercion_witness :
  recv (Some (QArr [IStr "Ann"; IStr "Bo"])) ∅
  = ({| status := 200;
        body := MessagesBody "No messages found for recipient" "ann,bo"
                             [] 0 |}, ∅).
Proof.
  destruct (recv_query_coercion [IStr "Ann"; IStr "Bo"] ∅)
    as (_ & _ & _ & _ & _ & H & _); [cbn; lia|].
  apply H. reflexivity.
Defined.

(** C10. In every store the server reaches no key holds an empty array, so
    the size of the map is the number of keys with a queued message, which
    is what [/health] reports; an accepted send leaves a non-empty array
    under its key, and a validated receive leaves no entry under its key. *)
Theorem store_invariant (t : list Request) :
  no_empty_entry (final t ∅)
  ∧ size (final t ∅) = nonempty_mailboxes (final t ∅)
  ∧ reported_total (health (final t ∅)).1
    = Some (nonempty_mailboxes (final t ∅))
  ∧ (∀ e reqBody to text,
       send_input reqBody = Some (to, text) →
       (send e reqBody (final t ∅)).2 !! toLowerCase to
       = Some (mailbox (final t ∅) (toLowerCase to)
               ++ [newMessage e to text])%list)
  ∧ (∀ q k, recv_key q = Some k → (recv q (final t ∅)).2 !! k = None).
Proof.
  pose proof (final_no_empty_entry t ∅ empty_no_empty_entry) as Hinv.
  split; [done|]. split; [by rewrite size_final_nonempty|].
  split; [cbn; by rewrite size_final_nonempty|]. split.
  - intros e reqBody to text Hin. rewrite (send_accepted _ _ _ _ _ Hin).
    cbn [snd]. rewrite lookup_deposit. by rewrite decide_True.
  - intros q k Hq. rewrite (recv_valid _ _ _ Hq).
    destruct (mailbox (final t ∅) k) eqn:Hbox; cbn [length Nat.eqb snd].
    + apply mailbox_nil_iff in Hbox as [H|H]; [done|]. by apply Hinv in H.
    + apply lookup_delete_eq.
Qed.

Lemma store_invariant_witness :
  size (final [PostSend env_a (send_body "alice" "Hello");
               PostSend env_b (send_body "Alice" "again");
               PostSend env_b (send_body "bob" "Hello");
               GetRecv (Some (QStr "BOB"))] ∅)
  = nonempty_mailboxes
      (final [PostSend env_a (send_body "alice" "Hello");
              PostSend env_b (send_body "Alice" "again");
              PostSend env_b (send_body "bob" "Hello");
              GetRecv (Some (QStr "BOB"))] ∅).
Proof.
  exact (proj1 (proj2 (store_invariant
    [PostSend env_a (send_body "alice" "Hello");
     PostSend env_b (send_body "Alice" "again");
     PostSend env_b (send_body "bob" "Hello");
     GetRecv (Some (QStr "BOB"))]))).
Defined.

(** ** Further properties of the message server *)

Section more_handlers.
Implicit Types (s : gmap string (list Message)) (k : string).

(** The four ways [/send] can go, with the reply of each. *)
Lemma send_cases e reqBody s :
  ((reqBody = None ∨ reqBody = Some JNull)
   ∧ send e reqBody s = (internal_error "Failed to send message", s))
  ∨ (reqBody ≠ None ∧ reqBody ≠ Some JNull
     ∧ ¬ nonempty_string (field reqBody "recipient")
     ∧ send e reqBody s
       = (invalid_recipient "Recipient is required and must be a string", s))
  ∨ (reqBody ≠ None ∧ reqBody ≠ Some JNull
     ∧ nonempty_string (field reqBody "recipient")
     ∧ ¬ nonempty_string (field reqBody "message")
     ∧ send e reqBody s = (invalid_message, s))
  ∨ (∃ to text,
       field reqBody "recipient" = Some (JStr to) ∧ to ≠ ""
       ∧ field reqBody "message" = Some (JStr text) ∧ text ≠ ""
       ∧ send_input reqBody = Some (to, text)).
Proof.
  destruct reqBody as [b|]; [|by left; auto].
  assert (b = JNull ∨ b ≠ JNull) as [->|Hb] by (destruct b; auto);
    [by left; auto|]. right.
  assert (Hsome : Some b ≠ Some JNull) by congruence.
  assert (Hbad : ∀ v, (∀ x, v = Some (JStr x) → x = "") →
                      ¬ nonempty_string v).
  { intros v Hv (x & -> & Hx). by apply Hx, Hv. }
  cbn [field].
  destruct (prop b "recipient") as [[| | |to| |]|] eqn:Hr;
    try (left; split; [done|]; split; [done|]; split; [by apply Hbad|];
         unfold send; rewrite Hr; by destruct b).
  destruct (String.eqb to "") eqn:Hto.
  { apply String.eqb_eq in Hto as ->. left.
    split; [done|]. split; [done|]. split; [apply Hbad; by intros x [= <-]|].
    unfold send. rewrite Hr. by destruct b. }
  apply eqb_empty_false in Hto as Hto'. right.
  assert (Hgood : nonempty_string (Some (JStr to))) by (by exists to).
  destruct (prop b "message") as [[| | |text| |]|] eqn:Hm;
    try (left; split; [done|]; split; [done|]; split; [done|];
         split; [by apply Hbad|];
         unfold send; rewrite Hr, Hto, Hm; by destruct b).
  destruct (String.eqb text "") eqn:Htext.
  { apply String.eqb_eq in Htext as ->. left.
    split; [done|]. split; [done|]. split; [done|].
    split; [apply Hbad; by intros x [= <-]|].
    unfold send. rewrite Hr, Hto, Hm. by destruct b. }
  apply eqb_empty_false in Htext as Htext'. right. exists to, text.
  split; [done|]. split; [done|]. split; [done|]. split; [done|].
  by apply send_input_intro.
Qed.

Lemma send_reply_independent e reqBody s s' :
  (send e reqBody s).1 = (send e reqBody s').1.
Proof. unfold send. repeat case_match; reflexivity. Qed.

Lemma recv_invalid_reply q s :
  recv_key q = None →
  ∃ msg, recv q s = (invalid_recipient msg, s).
Proof.
  unfold recv_key, recv. destruct q as [v|]; [|by eexists].
  destruct (truthy v); [|by eexists]. cbn [andb negb].
  destruct (String.eqb (trim (to_String v)) ""); [by eexists|done].
Qed.

(** What a handler does to the entry of [j] only depends on that entry. *)
Lemma handle_lookup_local r s s' j :
  s !! j = s' !! j → (handle r s).2 !! j = (handle r s').2 !! j.
Proof.
  intros Hj. destruct (decide (target r = Some j)) as [Ht|Ht];
    [|by rewrite !handle_lookup_ne].
  assert (Hbox : mailbox s j = mailbox s' j) by (unfold mailbox; by rewrite Hj).
  destruct r as [e reqBody|q|]; cbn [handle target] in *; [| |done].
  - destruct (send_input reqBody) as [[to text]|] eqn:Hin; [|done].
    cbn in Ht. injection Ht as <-.
    rewrite !(send_accepted _ _ _ _ _ Hin). cbn [snd].
    rewrite !lookup_deposit, !decide_True by done. by rewrite Hbox.
  - rewrite !(recv_valid _ _ _ Ht), Hbox.
    destruct (mailbox s' j); cbn; [done|]. by rewrite !lookup_delete_eq.
Qed.

(** The reply of [/send] and [/recv] only depends on the entry they work on. *)
Lemma handle_reply_local r s s' :
  r ≠ GetHealth →
  (∀ k, target r = Some k → s !! k = s' !! k) →
  (handle r s).1 = (handle r s').1.
Proof.
  intros Hr Hk. destruct r as [e reqBody|q|]; [| |by destruct Hr];
    cbn [handle target] in *.
  - apply send_reply_independent.
  - destruct (recv_key q) as [k|] eqn:Hq.
    + rewrite !(recv_valid _ _ _ Hq). unfold mailbox. rewrite (Hk k eq_refl).
      by destruct (default [] (s' !! k)).
    + destruct (recv_invalid_reply q s Hq) as [msg Hs].
      unfold recv_key, recv in *. destruct q as [v|]; [|done].
      destruct (truthy v); [|done]. cbn [andb negb] in *.
      by destruct (String.eqb (trim (to_String v)) "").
Qed.

Lemma responses_recv_empty q k s n :
  recv_key q = Some k → mailbox s k = [] →
  responses (replicate n (GetRecv q)) s = replicate n (no_messages k).
Proof.
  intros Hq Hnil. induction n as [|n IH]; [done|].
  cbn [replicate responses handle].
  rewrite (recv_valid _ _ _ Hq), Hnil. cbn [length Nat.eqb fst snd].
  by rewrite IH.
Qed.

Lemma lower_unit_idemp c : lower_unit (lower_unit c) = lower_unit c.
Proof. by destruct c as [[] [] [] [] [] [] [] []]. Qed.

Lemma toLowerCase_idemp x : toLowerCase (toLowerCase x) = toLowerCase x.
Proof. induction x as [|c x IH]; [done|]. cbn. by rewrite lower_unit_idemp, IH. Qed.

Lemma toLowerCase_nonempty x : x ≠ "" → toLowerCase x ≠ "".
Proof. by destruct x. Qed.

Lemma deposit_entry_ok e to text s :
  to ≠ "" → text ≠ "" →
  (∀ k l, s !! k = Some l → entry_ok k l) →
  ∀ k l, deposit (newMessage e to text) s !! k = Some l → entry_ok k l.
Proof.
  intros Hto Htext Hs k l. rewrite lookup_deposit. cbn [recipient newMessage].
  case_decide as Hk; [|by apply Hs]. subst k. intros [= <-].
  split; [apply toLowerCase_idemp|]. split; [by apply toLowerCase_nonempty|].
  apply Forall_app. split; [|by apply Forall_singleton].
  unfold mailbox. destruct (s !! toLowerCase to) as [l|] eqn:Hl; cbn; [|done].
  by destruct (Hs _ _ Hl) as (_ & _ & ?).
Qed.

Lemma handle_entry_ok r s :
  (∀ k l, s !! k = Some l → entry_ok k l) →
  ∀ k l, (handle r s).2 !! k = Some l → entry_ok k l.
Proof.
  intros Hs. destruct r as [e reqBody|q|]; cbn [handle]; [| |done].
  - destruct (send_input reqBody) as [[to text]|] eqn:Hin.
    + rewrite (send_accepted _ _ _ _ _ Hin). cbn [snd].
      apply send_input_Some in Hin as (b & _ & _ & _ & Hto & Htext).
      by apply deposit_entry_ok.
    + by rewrite (proj1 (send_rejected e _ s Hin)).
  - destruct (recv_key q) as [k|] eqn:Hq.
    + rewrite (recv_valid _ _ _ Hq). destruct (mailbox s k); cbn; [done|].
      intros j lj. rewrite lookup_delete. case_decide; [done|]. apply Hs.
    + by rewrite (proj2 (recv_invalid _ s Hq)).
Qed.

Lemma length_append (a b : string) :
  String.length (a +:+ b) = (String.length a + String.length b)%nat.
Proof.
  induction a as [|c a IH]; [done|].
  change (String c a +:+ b) with (String c (a +:+ b)). cbn. by rewrite IH.
Qed.

Lemma length_substring n m (x : string) :
  String.length (substring n m x) = (m `min` (String.length x - n))%nat.
Proof.
  revert n m. induction x as [|c x IH]; intros [|n] [|m]; cbn; try done.
  all: rewrite IH; lia.
Qed.
End more_handlers.

(** X1. No loss, no duplication.  For every run from every store and every
    key, the messages handed out by the receives of the run followed by the
    messages still queued are the messages queued at the start followed by
    the accepted sends, in order; so the numbers add up as well. *)
Theorem no_loss_no_duplication (k : string) (t : list Request)
    (s : gmap string (list Message)) :
  (received k t s ++ (view <$> mailbox (final t s) k))%list
  = ((view <$> mailbox s k) ++ (view <$> sent_to k t))%list
  ∧ (length (received k t s) + length (mailbox (final t s) k)
     = length (mailbox s k) + length (sent_to k t))%nat.
Proof.
  pose proof (conservation k t s) as H. rewrite fmap_app in H.
  split; [done|]. apply (f_equal length) in H.
  by rewrite !length_app, !length_fmap in H.
Qed.

(** X2. In every reply of [/recv] that carries a count, the count is the
    number of messages of the reply and the status is 200; a reply without
    a count is a 400 without messages and the store is as before. *)
Theorem recv_count_is_length (q : option QueryValue)
    (s : gmap string (list Message)) :
  match returned_count (recv q s).1 with
  | Some n => n = length (returned (recv q s).1) ∧ status (recv q s).1 = 200
  | None =>
      status (recv q s).1 = 400 ∧ returned (recv q s).1 = []
      ∧ (recv q s).2 = s
  end.
Proof.
  destruct (recv_key q) as [k|] eqn:Hq.
  - rewrite (recv_count _ _ _ Hq). split; [done|]. by eapply recv_status.
  - destruct (recv_invalid_reply q s Hq) as [msg ->]. by cbn.
Qed.

(** X3. Every reply has status 200, 201, 400 or 500, and a request answered
    400 or 500 changes nothing: the store is the same, and the reply carries
    no message and no id. *)
Theorem error_reply_keeps_store (r : Request)
    (s : gmap string (list Message)) :
  (status (handle r s).1 = 200 ∨ status (handle r s).1 = 201
   ∨ status (handle r s).1 = 400 ∨ status (handle r s).1 = 500)
  ∧ (status (handle r s).1 = 400 ∨ status (handle r s).1 = 500 →
     (handle r s).2 = s
     ∧ returned (handle r s).1 = []
     ∧ reported_id (handle r s).1 = None).
Proof.
  destruct r as [e reqBody|q|]; cbn [handle].
  - destruct (send_cases e reqBody s)
      as [[_ ->]|[(_ & _ & _ & ->)|[(_ & _ & _ & _ & ->)|(to & text & H)]]];
      cbn; try by auto.
    destruct H as (_ & _ & _ & _ & Hin).
    rewrite (send_accepted _ _ _ _ _ Hin). cbn.
    split; [by auto|]. by intros [|].
  - destruct (recv_key q) as [k|] eqn:Hq.
    + rewrite (recv_status _ _ _ Hq). split; [by auto|]. by intros [|].
    + destruct (recv_invalid_reply q s Hq) as [msg ->]. cbn. by auto.
  - cbn. split; [by auto|]. by intros [|].
Qed.

Lemma error_reply_keeps_store_witness :
  (handle (PostSend env_a (send_body "" "hi"))
     (final [PostSend env_a (send_body "bob" "kept")] ∅)).2
  = final [PostSend env_a (send_body "bob" "kept")] ∅.
Proof.
  destruct (error_reply_keeps_store (PostSend env_a (send_body "" "hi"))
              (final [PostSend env_a (send_body "bob" "kept")] ∅))
    as [_ H].
  destruct H as (H & _ & _); [left; reflexivity | exact H].
Defined.

(** X4. Of any number of receives in a row for the same key, only the first
    hands out the queued messages; each of the others gets the empty
    answer, and the mailbox is empty at the end. *)
Theorem repeated_recv_single_drain (q : option QueryValue) (k : string)
    (s : gmap string (list Message)) (n : nat) :
  recv_key q = Some k →
  responses (replicate (S n) (GetRecv q)) s
  = (recv q s).1 :: replicate n (no_messages k)
  ∧ returned (recv q s).1 = view <$> mailbox s k
  ∧ mailbox (final (replicate (S n) (GetRecv q)) s) k = [].
Proof.
  intros Hq. split; [|split].
  - cbn [replicate responses handle]. f_equal.
    apply responses_recv_empty; [done|]. by apply recv_mailbox.
  - by apply recv_returned.
  - revert s. induction n as [|n IH]; intros s.
    + cbn [replicate final handle]. by apply recv_mailbox.
    + change (replicate (S (S n)) (GetRecv q))
        with (GetRecv q :: replicate (S n) (GetRecv q)).
      cbn [final]. apply IH.
Qed.

Lemma repeated_recv_single_drain_witness :
  responses (replicate 5 (GetRecv (Some (QStr "concurrent"))))
    (final [PostSend env_a (send_body "concurrent" "Test message")] ∅)
  = [{| status := 200;
        body := MessagesBody "Messages retrieved successfully" "concurrent"
                  [view (newMessage env_a "concurrent" "Test message")] 1 |};
     no_messages "concurrent"; no_messages "concurrent";
     no_messages "concurrent"; no_messages "concurrent"].
Proof.
  destruct (repeated_recv_single_drain (Some (QStr "concurrent")) "concurrent"
              (final [PostSend env_a (send_body "concurrent" "Test message")] ∅)
              4 eq_refl) as [H _].
  exact H.
Defined.

(** X5. In every store the server reaches, each key is a non-empty string
    already in lower case, and each message queued under it names that key
    as its recipient and has a non-empty content. *)
Theorem stored_entries_well_formed (t : list Request) (k : string)
    (l : list Message) :
  final t ∅ !! k = Some l → entry_ok k l.
Proof.
  assert (Hgen : ∀ s, (∀ k l, s !! k = Some l → entry_ok k l) →
                      ∀ k l, final t s !! k = Some l → entry_ok k l).
  { induction t as [|r t IH]; intros s Hs; cbn [final]; [done|].
    by apply IH, handle_entry_ok. }
  apply Hgen. intros k' l'. by rewrite lookup_empty.
Qed.

Lemma stored_entries_well_formed_witness :
  entry_ok "alice" [newMessage env_a "ALICE" "Hello!"].
Proof.
  apply (stored_entries_well_formed
           [PostSend env_a (send_body "ALICE" "Hello!")] "alice").
  reflexivity.
Defined.

(** X6. Two requests that do not work on the same key can be handled in
    either order: the store at the end is the same, and [/send] and [/recv]
    get the same reply whether the other request came first or not. *)
Theorem requests_on_distinct_keys_commute (r1 r2 : Request)
    (s : gmap string (list Message)) :
  (∀ k, target r1 = Some k → target r2 ≠ Some k) →
  final [r1; r2] s = final [r2; r1] s
  ∧ (r1 ≠ GetHealth → (handle r1 (handle r2 s).2).1 = (handle r1 s).1)
  ∧ (r2 ≠ GetHealth → (handle r2 (handle r1 s).2).1 = (handle r2 s).1).
Proof.
  intros Hkeys.
  assert (Hkeys' : ∀ k, target r2 = Some k → target r1 ≠ Some k).
  { intros k H2 H1. by apply (Hkeys k). }
  split; [|split].
  - cbn [final]. apply map_eq. intros j.
    destruct (decide (target r1 = Some j)) as [H1|H1].
    + rewrite (handle_lookup_ne r2 _ j) by by apply Hkeys.
      apply handle_lookup_local. symmetry. by apply handle_lookup_ne, Hkeys.
    + rewrite (handle_lookup_ne r1 _ j) by done.
      apply handle_lookup_local. by apply handle_lookup_ne.
  - intros Hr. apply handle_reply_local; [done|].
    intros k Hk. by apply handle_lookup_ne, Hkeys.
  - intros Hr. apply handle_reply_local; [done|].
    intros k Hk. by apply handle_lookup_ne, Hkeys'.
Qed.

Lemma requests_on_distinct_keys_commute_witness :
  final [GetRecv (Some (QStr "frank"));
         PostSend env_b (send_body "grace" "Hello, Grace!")]
    (final [PostSend env_a (send_body "frank" "Hello, Frank!")] ∅)
  = final [PostSend env_b (send_body "grace" "Hello, Grace!");
           GetRecv (Some (QStr "frank"))]
      (final [PostSend env_a (send_body "frank" "Hello, Frank!")] ∅).
Proof.
  destruct (requests_on_distinct_keys_commute
              (GetRecv (Some (QStr "frank")))
              (PostSend env_b (send_body "grace" "Hello, Grace!"))
              (final [PostSend env_a (send_body "frank" "Hello, Frank!")] ∅))
    as [H _]; [|exact H].
  intros k [= <-]. by vm_compute.
Defined.

(** X7. The id of a message is the decimal clock reading followed by the
    characters of the random draw from the third on, nine at most: its
    length is the number of digits plus the smaller of 9 and the length of
    the draw less two.  A draw of fewer than eleven characters gives a
    shorter id, and a draw of at most two characters adds nothing. *)
Theorem message_id_length (e : Env) :
  String.length (generateMessageId e)
  = (String.length (pretty (date_now e))
     + 9 `min` (String.length (random_36 e) - 2))%nat
  ∧ ((String.length (random_36 e) ≤ 2)%nat →
     generateMessageId e = pretty (date_now e)).
Proof.
  unfold generateMessageId, substr. split.
  - by rewrite length_append, length_substring.
  - intros Hshort.
    assert (Hnil : substring 2 9 (random_36 e) = "").
    { destruct (random_36 e) as [|c1 [|c2 [|c3 x]]]; cbn in *; try done. lia. }
    rewrite Hnil. generalize (pretty (date_now e)).
    induction s as [|c x IH]; [done|].
    change (String c x +:+ "") with (String c (x +:+ "")). by rewrite IH.
Qed.

Lemma message_id_length_witness :
  generateMessageId {| date_now := 1762041600000; random_36 := "0";
                       new_date := 1762041600000 |}
  = "1762041600000".
Proof.
  apply (message_id_length {| date_now := 1762041600000; random_36 := "0";
                              new_date := 1762041600000 |}).
  cbn. lia.
Defined.

(** X8. The status of [/send] tells what was wrong.  It is 500 exactly when
    the body is [undefined] or [null], and 201 exactly when [recipient] and
    [message] are both non-empty strings.  With a body, a bad recipient is
    reported whatever the message is, and a bad message only when the
    recipient is good. *)
Theorem send_status_cases (e : Env) (reqBody : option Json)
    (s : gmap string (list Message)) :
  (status (send e reqBody s).1 = 500 ↔ reqBody = None ∨ reqBody = Some JNull)
  ∧ (status (send e reqBody s).1 = 201 ↔
     nonempty_string (field reqBody "recipient")
     ∧ nonempty_string (field reqBody "message"))
  ∧ (reqBody ≠ None → reqBody ≠ Some JNull →
     ¬ nonempty_string (field reqBody "recipient") →
     (send e reqBody s).1
     = invalid_recipient "Recipient is required and must be a string")
  ∧ (nonempty_string (field reqBody "recipient") →
     ¬ nonempty_string (field reqBody "message") →
     (send e reqBody s).1 = invalid_message).
Proof.
  assert (Hnull : ¬ nonempty_string (field (Some JNull) "recipient")).
  { by intros (x & [=] & _). }
  assert (Hnone : ¬ nonempty_string (field None "recipient")).
  { by intros (x & [=] & _). }
  destruct (send_cases e reqBody s)
    as [[Hb ->]|[(Hb1 & Hb2 & Hr & ->)|[(Hb1 & Hb2 & Hr & Hm & ->)
                                       |(to & text & Hr & Hto & Hm & Htext & Hin)]]];
    cbn [fst status internal_error invalid_recipient invalid_message].
  - split; [done|]. split; [|split].
    + split; [done|]. intros [Hr _]. by destruct Hb as [->| ->].
    + intros H1 H2. by destruct Hb.
    + intros Hr. by destruct Hb as [->| ->].
  - split; [split; [done|by intros [|]]|].
    split; [split; [done|by intros []]|]. split; [done|]. by intros.
  - split; [split; [done|by intros [|]]|].
    split; [split; [done|by intros []]|]. split; [by intros|done].
  - rewrite (send_accepted _ _ _ _ _ Hin). cbn [fst status].
    assert (Hgr : nonempty_string (field reqBody "recipient")).
    { rewrite Hr. by exists to. }
    assert (Hgm : nonempty_string (field reqBody "message")).
    { rewrite Hm. by exists text. }
    split. { split; [done|]. intros [->| ->]; by destruct Hgr as (? & [=] & _). }
    split; [done|]. split; by intros.
Qed.

Lemma send_status_cases_witness :
  (send env_a (Some (JObj [("recipient", JNum 123); ("message", JStr "")])) ∅).1
  = invalid_recipient "Recipient is required and must be a string".
Proof.
  destruct (send_status_cases env_a
              (Some (JObj [("recipient", JNum 123); ("message", JStr "")])) ∅)
    as (_ & _ & H & _).
  apply H; [done | done | ]. by intros (x & [=] & _).
Defined.

(** X9. Recipients that differ only in case are the same recipient to the
    server: a [/recv] for either gives the same reply and store, and so does
    a [/send] of the same content at the same time to either. *)
Theorem case_variants_indistinguishable (e : Env) (x y text : string)
    (s : gmap string (list Message)) :
  toLowerCase x = toLowerCase y →
  recv (Some (QStr x)) s = recv (Some (QStr y)) s
  ∧ send e (send_body x text) s = send e (send_body y text) s.
Proof.
  intros Hxy.
  destruct x as [|cx x], y as [|cy y]; try done.
  set (x' := String cx x) in *. set (y' := String cy y) in *.
  assert (Hx : x' ≠ "") by done. assert (Hy : y' ≠ "") by done.
  clearbody x' y'. split.
  - destruct (decide (trim x' = "")) as [Hblank|Hkey].
    + assert (Hblank' : trim y' = "").
      { apply trim_empty_iff. apply trim_empty_iff in Hblank.
        by rewrite <-(all_space_toLowerCase y'), <-Hxy, all_space_toLowerCase. }
      apply eqb_empty_false in Hx, Hy.
      unfold recv. cbn [truthy to_String]. by rewrite Hx, Hy, Hblank, Hblank'.
    + assert (Hkey' : trim y' ≠ "") by (by eapply trim_case_variant).
      rewrite (recv_valid _ _ _ (recv_key_string _ Hkey)).
      rewrite (recv_valid _ _ _ (recv_key_string _ Hkey')). by rewrite Hxy.
  - destruct (decide (text = "")) as [->|Htext].
    + apply eqb_empty_false in Hx, Hy. unfold send, send_body. cbn.
      by rewrite Hx, Hy.
    + rewrite (send_accepted _ _ _ _ _ (send_input_body _ _ Hx Htext)).
      rewrite (send_accepted _ _ _ _ _ (send_input_body _ _ Hy Htext)).
      unfold newMessage. by rewrite Hxy.
Qed.

Lemma case_variants_indistinguishable_witness :
  recv (Some (QStr "EVE"))
    (final [PostSend env_a (send_body "eve" "Hello, Eve!")] ∅)
  = recv (Some (QStr "eve"))
      (final [PostSend env_a (send_body "eve" "Hello, Eve!")] ∅).
Proof.
  apply (case_variants_indistinguishable env_a "EVE" "eve" "").
  reflexivity.
Defined.

(** ** Properties of the echo server *)

Section echo_server.
Import EchoServer.
Implicit Types (w : World) (req : EchoServer.Request).

Lemma append_nil_r (x : string) : x +:+ "" = x.
Proof.
  induction x as [|c x IH]; [done|].
  change (String c x +:+ "") with (String c (x +:+ "")). by rewrite IH.
Qed.

Lemma append_assoc (x y z : string) : (x +:+ y) +:+ z = x +:+ (y +:+ z).
Proof.
  induction x as [|c x IH]; [done|].
  change (String c x +:+ y) with (String c (x +:+ y)).
  change (String c (x +:+ y) +:+ z) with (String c ((x +:+ y) +:+ z)).
  change (String c x +:+ (y +:+ z)) with (String c (x +:+ (y +:+ z))).
  by rewrite IH.
Qed.

Lemma routes_world req w : (routes req w).2 = w.
Proof. unfold routes. by repeat case_match. Qed.

Lemma routes_reply req w w' : (routes req w).1 = (routes req w').1.
Proof. unfold routes. by repeat case_match. Qed.

Lemma authenticate_world valid req w :
  (authenticate valid req (routes req) w).2 = w.
Proof. unfold authenticate. repeat case_match; try done; apply routes_world. Qed.

Lemma app_world cfg ts req w :
  (app cfg ts req w).2
  = {| requests_log := appendFileSync (requests_log w) (logEntry ts req);
       console := (console w ++ [trim (logEntry ts req)])%list |}.
Proof. unfold app, logger. apply authenticate_world. Qed.

Lemma VALID_API_KEY_nonempty cfg : VALID_API_KEY cfg ≠ "".
Proof.
  unfold VALID_API_KEY. destruct cfg as [k|]; [|done].
  destruct (String.eqb k "") eqn:Hk; [done|]. by apply eqb_empty_false.
Qed.

Lemma app_reply_valid cfg ts req w :
  x_api_key req = Some (HStr (VALID_API_KEY cfg)) →
  (app cfg ts req w).1 = (routes req w).1.
Proof.
  intros Hkey. unfold app, logger, authenticate. rewrite Hkey.
  pose proof (VALID_API_KEY_nonempty cfg) as Hne.
  destruct (VALID_API_KEY cfg) as [|c k] eqn:Hv; [done|].
  rewrite String.eqb_refl. apply routes_reply.
Qed.
End echo_server.

(** X10. The logger runs first: every request, with or without a valid key,
    routed or not, adds its entry at the end of the log file and its trimmed
    entry at the end of the console, and nothing else is written.  After a
    run the file holds what it held before followed by the entries of the
    run in order; the first request creates the file when it is absent. *)
Theorem request_log_appended (cfg : option string)
    (t : list (string * EchoServer.Request)) (w : EchoServer.World) :
  EchoServer.requests_log (EchoServer.serve cfg t w)
  = match t with
    | [] => EchoServer.requests_log w
    | _ => Some (default "" (EchoServer.requests_log w)
                 +:+ EchoServer.log_lines t)
    end
  ∧ EchoServer.console (EchoServer.serve cfg t w)
    = (EchoServer.console w
       ++ ((λ p, trim (EchoServer.logEntry p.1 p.2)) <$> t))%list.
Proof.
  revert w. induction t as [|[ts req] t IH]; intros w.
  { cbn. by rewrite app_nil_r. }
  cbn [EchoServer.serve]. destruct (IH (EchoServer.app cfg ts req w).2) as [IH1 IH2].
  rewrite IH1, IH2, app_world. cbn [EchoServer.requests_log EchoServer.console].
  split.
  - unfold EchoServer.appendFileSync.
    change (default "" (Some ?x)) with x.
    destruct t as [|p t]; unfold EchoServer.log_lines; cbn [foldr fst snd].
    + by rewrite append_nil_r.
    + by rewrite append_assoc.
  - by rewrite <-(assoc_L (++)).
Qed.

(** X11. The key check.  The valid key is never the empty string.  A request
    whose [x-api-key] header is exactly the valid key gets the reply of the
    routes; a request without the header or with an empty one is answered
    401 "API key is required"; any other header value, an array included,
    is answered 401 "Invalid API key". *)
Theorem api_key_gate (cfg : option string) (ts : string)
    (req : EchoServer.Request) (w : EchoServer.World) :
  EchoServer.VALID_API_KEY cfg ≠ ""
  ∧ (EchoServer.x_api_key req
     = Some (EchoServer.HStr (EchoServer.VALID_API_KEY cfg)) →
     (EchoServer.app cfg ts req w).1 = (EchoServer.routes req w).1)
  ∧ (EchoServer.x_api_key req = None
     ∨ EchoServer.x_api_key req = Some (EchoServer.HStr "") →
     (EchoServer.app cfg ts req w).1
     = Some {| EchoServer.status := 401;
               EchoServer.payload :=
                 EchoServer.ErrorJson "API key is required"
                   "Please provide a valid API key in the x-api-key header" |})
  ∧ (∀ h, EchoServer.x_api_key req = Some h →
          h ≠ EchoServer.HStr "" →
          h ≠ EchoServer.HStr (EchoServer.VALID_API_KEY cfg) →
          (EchoServer.app cfg ts req w).1
          = Some {| EchoServer.status := 401;
                    EchoServer.payload :=
                      EchoServer.ErrorJson "Invalid API key"
                        "The provided API key is not valid" |}).
Proof.
  split; [apply VALID_API_KEY_nonempty|]. split; [apply app_reply_valid|].
  split.
  - intros [H|H]; unfold EchoServer.app, EchoServer.logger,
      EchoServer.authenticate; by rewrite H.
  - intros h Hh Hempty Hvalid.
    unfold EchoServer.app, EchoServer.logger, EchoServer.authenticate.
    rewrite Hh. destruct h as [[|c k]|items]; [done| |done].
    destruct (String.eqb (String c k) (EchoServer.VALID_API_KEY cfg)) eqn:E;
      [|done].
    apply String.eqb_eq in E. by rewrite E in Hvalid.
Qed.

Lemma api_key_gate_witness :
  (EchoServer.app None "2026-11-02T00:00:00.000Z"
     EchoServer.anonymous_request
     {| EchoServer.requests_log := None; EchoServer.console := [] |}).1
  = Some {| EchoServer.status := 401;
            EchoServer.payload :=
              EchoServer.ErrorJson "API key is required"
                "Please provide a valid API key in the x-api-key header" |}.
Proof.
  destruct (api_key_gate None "2026-11-02T00:00:00.000Z"
              EchoServer.anonymous_request
              {| EchoServer.requests_log := None; EchoServer.console := [] |})
    as (_ & _ & H & _).
  apply H. left. reflexivity.
Defined.

Section echoed_values.
Import EchoServer.

Lemma Value_nested_ind (P : Value → Prop) :
  P VNull → (∀ b, P (VBool b)) → (∀ x, P (VNum x)) → (∀ x, P (VStr x)) →
  (∀ items, Forall P items → P (VArr items)) →
  (∀ fields, Forall (λ kv, P kv.2) fields → P (VObj fields)) →
  ∀ v, P v.
Proof.
  intros H0 H1 H2 H3 H4 H5. fix IH 1.
  intros [|b|x|x|items|fields]; [done|done|done|done| |].
  - apply H4. induction items as [|a l IHl]; constructor; [apply IH|apply IHl].
  - apply H5. induction fields as [|[k a] l IHl]; constructor;
      [apply IH|apply IHl].
Qed.

(** A value comes back from [stringify] as it is exactly when it holds no
    [-0] and no infinity. *)
Lemma stringify_fixed_iff (v : Value) : stringify v = v ↔ plain v = true.
Proof.
  induction v as [|b|[m e| |neg]|x|items IH|fields IH] using Value_nested_ind;
    cbn [stringify plain]; try done.
  - split; [intros [= Hmap]|intros Hall; f_equal].
    + induction IH as [|a l Ha _ IHl]; [done|].
      cbn in *. injection Hmap as Hhead Htail.
      apply andb_true_iff. split; [by apply Ha|by apply IHl].
    + induction IH as [|a l Ha _ IHl]; [done|].
      cbn in *. apply andb_true_iff in Hall as [Hhead Htail].
      f_equal; [by apply Ha|by apply IHl].
  - split; [intros [= Hmap]|intros Hall; f_equal].
    + induction IH as [|[k a] l Ha _ IHl]; [done|].
      cbn in *. injection Hmap as Hhead Htail.
      apply andb_true_iff. split; [by apply Ha|by apply IHl].
    + induction IH as [|[k a] l Ha _ IHl]; [done|].
      cbn in *. apply andb_true_iff in Hall as [Hhead Htail].
      f_equal; [f_equal; by apply Ha|by apply IHl].
Qed.

Example echo_overflowed_number :
  EchoServer.echo
    (Some (VObj [("big", VNum (Infinite false)); ("zero", VNum NegZero);
                 ("n", VNum (Finite 42 0))]))
  = {| EchoServer.status := 200;
       payload := Echoed (Some (VObj [("big", VNull);
                                      ("zero", VNum (Finite 0 0));
                                      ("n", VNum (Finite 42 0))])) |}.
Proof. reflexivity. Qed.
End echoed_values.

(** X12. A request gets the reply of the echo route exactly when it carries
    the valid key, is routed to [POST /echo] and its body was parsed: the
    reply has status 200 and holds what [JSON.stringify] writes for the
    body, and nothing is echoed to a request without the valid key.  The
    body comes back unchanged exactly when it holds no [-0] and no
    infinity; [-0] comes back as [0] and an infinity as [null]. *)
Theorem echo_needs_api_key (cfg : option string) (ts : string)
    (req : EchoServer.Request) (w : EchoServer.World) :
  (∀ b, EchoServer.x_api_key req
        = Some (EchoServer.HStr (EchoServer.VALID_API_KEY cfg)) →
        EchoServer.route req = EchoServer.PostEcho →
        EchoServer.parsed req = EchoServer.Body b →
        (EchoServer.app cfg ts req w).1
        = Some {| EchoServer.status := 200;
                  EchoServer.payload :=
                    EchoServer.Echoed (EchoServer.stringify <$> b) |})
  ∧ (∀ resp x,
       (EchoServer.app cfg ts req w).1 = Some resp →
       EchoServer.payload resp = EchoServer.Echoed x →
       EchoServer.x_api_key req
       = Some (EchoServer.HStr (EchoServer.VALID_API_KEY cfg))
       ∧ EchoServer.route req = EchoServer.PostEcho
       ∧ EchoServer.status resp = 200
       ∧ ∃ b, EchoServer.parsed req = EchoServer.Body b
              ∧ x = EchoServer.stringify <$> b)
  ∧ (∀ v, EchoServer.stringify v = v ↔ EchoServer.plain v = true)
  ∧ EchoServer.stringify (EchoServer.VNum EchoServer.NegZero)
    = EchoServer.VNum (EchoServer.Finite 0 0)
  ∧ (∀ negative,
       EchoServer.stringify (EchoServer.VNum (EchoServer.Infinite negative))
       = EchoServer.VNull).
Proof.
  split; [|split; [|split; [apply stringify_fixed_iff|by split]]].
  - intros b Hkey Hroute Hbody. rewrite (app_reply_valid _ _ _ _ Hkey).
    unfold EchoServer.routes. by rewrite Hbody, Hroute.
  - intros resp x.
    unfold EchoServer.app, EchoServer.logger, EchoServer.authenticate.
    destruct (EchoServer.x_api_key req) as [[[|c k]|items]|] eqn:Hkey;
      try by intros [= <-].
    destruct (String.eqb (String c k) (EchoServer.VALID_API_KEY cfg)) eqn:E;
      [|by intros [= <-]].
    apply String.eqb_eq in E. rewrite E. unfold EchoServer.routes.
    destruct (EchoServer.parsed req) as [|b]; [done|].
    destruct (EchoServer.route req); [|by intros [= <-]|done].
    intros [= <-]. cbn. intros [= <-].
    split; [done|]. split; [done|]. split; [done|]. by exists b.
Qed.

Lemma echo_needs_api_key_witness :
  (EchoServer.app None "2026-11-02T00:00:00.000Z" EchoServer.sample_request
     {| EchoServer.requests_log := None; EchoServer.console := [] |}).1
  = Some {| EchoServer.status := 200;
            EchoServer.payload :=
              EchoServer.Echoed
                (Some (EchoServer.VObj [("test", EchoServer.VStr "data")])) |}.
Proof.
  destruct (echo_needs_api_key None "2026-11-02T00:00:00.000Z"
              EchoServer.sample_request
              {| EchoServer.requests_log := None; EchoServer.console := [] |})
    as (H & _).
  apply (H (Some (EchoServer.VObj [("test", EchoServer.VStr "data")])));
    reflexivity.
Defined.
